(** * ai-clip-cutter: highlight reconciliation and caption/crop geometry

    A shallow embedding of the algorithmic core of the repository:
    - [modules/TranscriptionAnalyzer.py]: [_fix_highlight_timestamps];
    - [modules/VideoProcessor.py]: [SubtitleProcessor._split_subtitle], the
      caption filter of [VideoProcessor.process_video] and
      [VideoProcessor._crop_to_aspect_ratio];
    - [main.py]: [process_highlights].

    Conventions of the embedding.
    - A Python [str] is a list of code points; the code points are restricted
      to the range below 256 and carried by [ascii].
    - Times (Python floats) are rationals [Q]: every claim about them is
      stated for exact arithmetic. Values that the code only copies are
      compared with Leibniz equality, values it computes with [Qeq].
    - Python integers are [Z] (or [nat] for lengths and indices).
    - A raised exception is an explicit result, never a default value. *)

From Stdlib Require Import Bool List Arith ZArith QArith Qfield Lia.
From Stdlib Require Import Ascii String.
Import Corelib.Init.Datatypes.
Import ListNotations.

Set Implicit Arguments.

(* ================================================================== *)
(** * Python results and exceptions                                     *)
(* ================================================================== *)

Module Py.

(** The exceptions of the embedding are instances of [Exception]: the
    class the handlers of the repository name. *)
Inductive exn :=
| ZeroDivisionError
| OtherException (msg : string).

Inductive result (A : Type) :=
| Ok (a : A)
| Raise (e : exn).
Arguments Ok {A} a.
Arguments Raise {A} e.

Definition bind {A B} (r : result A) (k : A -> result B) : result B :=
  match r with
  | Ok a => k a
  | Raise e => Raise e
  end.

(** [a / b] on two [int]s: true division, raising on a zero divisor. *)
Definition true_div (a b : Z) : result Q :=
  if (b =? 0)%Z then Raise ZeroDivisionError
  else Ok (inject_Z a / inject_Z b).

(** [a / b] on two floats. *)
Definition float_div (a b : Q) : result Q :=
  if Qeq_bool b 0 then Raise ZeroDivisionError else Ok (a / b).

(** [int(x)] on a float: truncation toward zero. *)
Definition int_ (x : Q) : Z := Z.quot (Qnum x) (Zpos (Qden x)).

(** [a < b] on floats. *)
Definition Qlt_bool (a b : Q) : bool := negb (Qle_bool b a).

(** [range(start, stop, step)] for a positive step. The fuel [stop - start]
    is never exhausted, see [range_spec]. *)
Fixpoint range_loop (fuel start stop step : nat) : list nat :=
  match fuel with
  | O => []
  | S fuel' =>
      if start <? stop
      then start :: range_loop fuel' (start + step) stop step
      else []
  end.

Definition range (start stop step : nat) : list nat :=
  range_loop (stop - start) start stop step.

(** [l[i:j]] for [0 <= i <= j]. *)
Definition slice {A} (l : list A) (i j : nat) : list A :=
  firstn (j - i) (skipn i l).

(** A [for] loop that appends one computed element per iteration and stops
    at the first exception. *)
Fixpoint for_each {A B} (body : A -> result B) (l : list A) : result (list B) :=
  match l with
  | [] => Ok []
  | a :: rest =>
      bind (body a) (fun b =>
      bind (for_each body rest) (fun bs => Ok (b :: bs)))
  end.

End Py.

Declare Scope py_scope.
Notation "x <- c ;; k" := (Py.bind c (fun x => k))
  (at level 61, c at next level, right associativity) : py_scope.

(* ================================================================== *)
(** * Python strings                                                    *)
(* ================================================================== *)

Module PyStr.

Definition str := list ascii.

(** A string literal of the development as a Python string. *)
Definition py (s : string) : str := String.list_ascii_of_string s.
Arguments py s%_string.

(** [Py_UNICODE_ISSPACE] on the code points below 256: it decides
    [str.isspace], the characters removed by [str.strip()], the separators
    of [str.split()] and the class [\s] of a [str] pattern. *)
Definition is_space (c : ascii) : bool :=
  let n := nat_of_ascii c in
  ((9 <=? n) && (n <=? 13)) || ((28 <=? n) && (n <=? 32))
  || (n =? 133) || (n =? 160).

(** The character class [[.!?]] of the sentence pattern. *)
Definition is_terminator (c : ascii) : bool :=
  let n := nat_of_ascii c in
  (n =? 46) || (n =? 33) || (n =? 63).

(** Truthiness of a string: [if s] holds for a non-empty [s]. *)
Definition truthy (s : str) : bool :=
  match s with [] => false | _ :: _ => true end.

Fixpoint lstrip (s : str) : str :=
  match s with
  | [] => []
  | c :: r => if is_space c then lstrip r else s
  end.

Definition rstrip (s : str) : str := rev (lstrip (rev s)).

(** [s.strip()] *)
Definition strip (s : str) : str := rstrip (lstrip s).

Fixpoint startswith (s prefix : str) : bool :=
  match prefix, s with
  | [], _ => true
  | _ :: _, [] => false
  | p :: prefix', c :: s' => Ascii.eqb p c && startswith s' prefix'
  end.

(** [needle in hay] for strings: [needle] occurs as a substring. *)
Fixpoint contains (needle hay : str) : bool :=
  startswith hay needle
  || match hay with
     | [] => false
     | _ :: hay' => contains needle hay'
     end.

(** [sep.join(l)] *)
Fixpoint join (sep : str) (l : list str) : str :=
  match l with
  | [] => []
  | w :: rest =>
      match rest with
      | [] => w
      | _ :: _ => w ++ sep ++ join sep rest
      end
  end.

Definition cons_word (w : str) (ws : list str) : list str :=
  match w with [] => ws | _ :: _ => w :: ws end.

(** One right-to-left pass of [s.split()]: the word that is still open at
    the left end of [s], and the words closed after it. *)
Fixpoint split_scan (s : str) : str * list str :=
  match s with
  | [] => ([], [])
  | c :: r =>
      let (w, ws) := split_scan r in
      if is_space c then ([], cons_word w ws) else (c :: w, ws)
  end.

(** [s.split()]: the maximal runs of non-whitespace characters of [s]. *)
Definition split (s : str) : list str :=
  let (w, ws) := split_scan s in cons_word w ws.

(** The scan of [re.split(r'(?<=[.!?])\s+', s)]. A match starts at a
    whitespace character that directly follows a terminator and takes the
    whole run of whitespace (the quantifier is greedy); matches are found
    left to right and do not overlap. *)
Inductive scan_mode :=
| InPiece (after_terminator : bool)   (* inside a piece; what precedes *)
| InSeparator.                        (* inside a matched whitespace run *)

(** The piece that is open at the left end of [s] and the pieces after it. *)
Fixpoint re_split_scan (m : scan_mode) (s : str) : str * list str :=
  match s with
  | [] => ([], [])
  | c :: r =>
      match m with
      | InSeparator =>
          if is_space c then re_split_scan InSeparator r
          else let (p, ps) := re_split_scan (InPiece (is_terminator c)) r in
               (c :: p, ps)
      | InPiece after_terminator =>
          if after_terminator && is_space c
          then let (p, ps) := re_split_scan InSeparator r in ([], p :: ps)
          else let (p, ps) := re_split_scan (InPiece (is_terminator c)) r in
               (c :: p, ps)
      end
  end.

(** [re.split(r'(?<=[.!?])\s+', s)]: always at least one piece. *)
Definition re_split_sentences (s : str) : list str :=
  let (p, ps) := re_split_scan (InPiece false) s in p :: ps.

End PyStr.

(* ================================================================== *)
(** * modules/TranscriptionAnalyzer.py                                  *)
(* ================================================================== *)

Module TranscriptionAnalyzer.
Import PyStr.

(** A transcript segment: the dict [{text, start, end}]. *)
Record Segment := mkSegment {
  seg_text : str;
  seg_start : Q;
  seg_end : Q
}.

(** A highlight: the dict [{start, end, content}]. *)
Record Highlight := mkHighlight {
  hl_start : Q;
  hl_end : Q;
  hl_content : str
}.

(** Lines 147-148: split the stripped content and drop the empty pieces. *)
Definition sentences_of (content : str) : list str :=
  filter truthy (re_split_sentences (strip content)).

Definition is_none {A} (o : option A) : bool :=
  match o with None => true | Some _ => false end.

(** Truthiness of [start_segment]/[end_segment]: [None] is false, a segment
    is a dict with keys and therefore true. *)
Definition is_set {A} (o : option A) : bool := negb (is_none o).

(** Lines 161-168: the loop over the transcript, with its [break]. *)
Fixpoint find_segments (first_sentence last_sentence : str)
    (original_transcription : list Segment)
    (start_segment end_segment : option Segment)
  : option Segment * option Segment :=
  match original_transcription with
  | [] => (start_segment, end_segment)
  | segment :: rest =>
      let start_segment' :=
        if contains first_sentence (seg_text segment) && is_none start_segment
        then Some segment else start_segment in
      let end_segment' :=
        if contains last_sentence (seg_text segment)
        then Some segment else end_segment in
      if is_set start_segment' && is_set end_segment'
      then (start_segment', end_segment')
      else find_segments first_sentence last_sentence rest
             start_segment' end_segment'
  end.

Definition set_start (h : Highlight) (t : Q) : Highlight :=
  {| hl_start := t; hl_end := hl_end h; hl_content := hl_content h |}.

Definition set_end (h : Highlight) (t : Q) : Highlight :=
  {| hl_start := hl_start h; hl_end := t; hl_content := hl_content h |}.

(** Lines 134-176. The dict is updated in place and returned; the embedding
    returns the updated record. [float(x)] is the identity on a time. *)
Definition _fix_highlight_timestamps (highlight : Highlight)
    (original_transcription : list Segment) : Highlight :=
  let sentences := sentences_of (hl_content highlight) in
  match sentences with
  | [] => highlight
  | first_sentence :: _ =>
      let last_sentence := last sentences first_sentence in
      let (start_segment, end_segment) :=
        find_segments first_sentence last_sentence original_transcription
          None None in
      let highlight1 :=
        match start_segment with
        | Some s => set_start highlight (seg_start s)
        | None => highlight
        end in
      match end_segment with
      | Some s => set_end highlight1 (seg_end s)
      | None => highlight1
      end
  end.

(** The sentences the scan looks for. *)
Definition first_sentence_of (content : str) : option str :=
  hd_error (sentences_of content).

Definition last_sentence_of (content : str) : option str :=
  match sentences_of content with
  | [] => None
  | s :: rest => Some (last (s :: rest) s)
  end.

(** A segment whose text contains the sentence. *)
Definition matches (sentence : str) (segment : Segment) : bool :=
  contains sentence (seg_text segment).

Definition earliest_match (sentence : str) (tr : list Segment) : option Segment :=
  find (matches sentence) tr.

Definition latest_match (sentence : str) (tr : list Segment) : option Segment :=
  find (matches sentence) (rev tr).

(** The transcript cut at the first segment that satisfies [p]. *)
Fixpoint cut_at_first (p : Segment -> bool) (tr : list Segment)
  : option (list Segment * Segment * list Segment) :=
  match tr with
  | [] => None
  | s :: rest =>
      if p s then Some ([], s, rest)
      else match cut_at_first p rest with
           | Some (pre, x, post) => Some (s :: pre, x, post)
           | None => None
           end
  end.

Definition or_else {A} (o1 o2 : option A) : option A :=
  match o1 with Some _ => o1 | None => o2 end.

(** The end anchor the scan settles on. Without a start anchor it is the
    latest segment that contains the last sentence. With a start anchor it
    is the latest such segment up to and including the start anchor, and
    failing that the earliest one after it: the scan stops as soon as both
    anchors are set. *)
Definition end_anchor (first_sentence last_sentence : str) (tr : list Segment)
  : option Segment :=
  match cut_at_first (matches first_sentence) tr with
  | None => latest_match last_sentence tr
  | Some (pre, s, post) =>
      or_else (latest_match last_sentence (pre ++ [s]))
              (earliest_match last_sentence post)
  end.

(** The number of segments whose text contains the sentence. *)
Definition occurrences (sentence : str) (tr : list Segment) : nat :=
  length (filter (matches sentence) tr).

(** The reading of "the end is the end of the latest matching segment". *)
Definition end_is_latest_match (h : Highlight) (tr : list Segment) : Prop :=
  forall lst e,
    last_sentence_of (hl_content h) = Some lst ->
    (1 < occurrences lst tr)%nat ->
    latest_match lst tr = Some e ->
    hl_end (_fix_highlight_timestamps h tr) = seg_end e.

(** The reading of "both boundaries are boundaries of transcript segments". *)
Definition boundaries_from_transcript (h : Highlight) (tr : list Segment) : Prop :=
  (exists s, In s tr /\ hl_start (_fix_highlight_timestamps h tr) = seg_start s)
  /\ (exists s, In s tr /\ hl_end (_fix_highlight_timestamps h tr) = seg_end s).

(** Two segments that both contain the sentence [World.], the first of
    which also contains the first sentence of the highlight. *)
Definition duplicate_transcript : list Segment :=
  [ mkSegment (py "Hello. World.") 0 1;
    mkSegment (py "World.") 1 2 ].

Definition duplicate_highlight : Highlight :=
  mkHighlight 0.1 0.9 (py "Hello. World.").

(** A transcript that contains no sentence of the highlight. *)
Definition unrelated_transcript : list Segment :=
  [ mkSegment (py "Bye.") 10 20 ].

Definition unrelated_highlight : Highlight :=
  mkHighlight 1 2 (py "Hello.").

(** The transcript of the worked example in the prompt template
    (lines 35-56) and the candidate highlight of the end-to-end scenario. *)
Definition scenario_text_1 : str :=
  py "It doesn't matter how high school you take and how high school you are, life is always a way to overcome your year.".

Definition scenario_text_2 : str :=
  py "But it doesn't matter how much you get from life, where are you most important conclusions from these gifts in the future?".

Definition scenario_transcript : list Segment :=
  [ mkSegment scenario_text_1 56.62 65.12;
    mkSegment scenario_text_2 65.12 74.68;
    mkSegment (py "What conclusions have I done?") 76.68 77.60;
    mkSegment (py "Let's find out!") 77.70 100.62 ].

Definition scenario_candidate : Highlight :=
  mkHighlight 56.60 74.70 (scenario_text_1 ++ py " " ++ scenario_text_2).

End TranscriptionAnalyzer.

(* ================================================================== *)
(** * modules/VideoProcessor.py                                         *)
(* ================================================================== *)

Module VideoProcessor.
Import Py PyStr.
Local Open Scope py_scope.
Local Open Scope Q_scope.

(** A caption: the dict [{start, end, text}]. *)
Record Subtitle := mkSubtitle {
  sub_start : Q;
  sub_end : Q;
  sub_text : str
}.

(** ** SubtitleProcessor._split_subtitle (lines 27-57) *)

(** Lines 43-55: the body of the loop at offset [i]. *)
Definition split_chunk (subtitle : Subtitle) (words : list str)
    (duration : Q) (i : nat) : result Subtitle :=
  let chunk := slice words i (i + 3) in
  let chunk_text := join (py " ") chunk in
  share <- true_div (Z.of_nat (length chunk)) (Z.of_nat (length words)) ;;
  let chunk_duration := duration * share in
  offset <- true_div (Z.of_nat i) (Z.of_nat (length words)) ;;
  let chunk_start := sub_start subtitle + duration * offset in
  let chunk_end := chunk_start + chunk_duration in
  Ok {| sub_start := chunk_start; sub_end := chunk_end;
        sub_text := chunk_text |}.

Definition _split_subtitle (subtitle : Subtitle) : result (list Subtitle) :=
  let words := split (sub_text subtitle) in
  let duration := sub_end subtitle - sub_start subtitle in
  for_each (split_chunk subtitle words duration)
           (range 0 (length words) 3).

(** The chunk of offset [i] when no division raises. *)
Definition chunk_at (subtitle : Subtitle) (words : list str)
    (duration : Q) (i : nat) : Subtitle :=
  let chunk := slice words i (i + 3) in
  let n := inject_Z (Z.of_nat (length words)) in
  let chunk_start :=
    sub_start subtitle + duration * (inject_Z (Z.of_nat i) / n) in
  {| sub_start := chunk_start;
     sub_end := chunk_start
                + duration * (inject_Z (Z.of_nat (length chunk)) / n);
     sub_text := join (py " ") chunk |}.

Definition sum_Q (l : list Q) : Q := fold_right Qplus 0 l.

(** The sum over the chunks of [end - start]. *)
Definition total_duration (chunks : list Subtitle) : Q :=
  sum_Q (map (fun c => sub_end c - sub_start c) chunks).

(** A word of [str.split()]: non-empty and free of whitespace. *)
Definition is_word (w : str) : bool :=
  truthy w && forallb (fun c => negb (is_space c)) w.

(** The reading of "concatenating the chunk texts gives back the text". *)
Definition concat_reconstructs (subtitle : Subtitle) : Prop :=
  forall chunks,
    _split_subtitle subtitle = Ok chunks ->
    List.concat (map sub_text chunks) = sub_text subtitle.

(** A caption of four words, and one without words. *)
Definition four_words : Subtitle := mkSubtitle 0 4 (py "a b c d").

Definition blank_caption : Subtitle := mkSubtitle 1 3 (py "   ").

(** ** The caption filter of process_video (lines 186-192) *)

(** The captions are dict objects. Each one is created by its own dict
    display in [_split_subtitle], so the objects of [subtitles] are pairwise
    distinct: the store is the list [subtitles] itself and a reference is a
    position in it. [trimmed_subtitles] holds references to the same
    objects, which the loop then updates in place. *)
Definition ref := nat.
Definition store := list Subtitle.

Definition in_window (start_time end_time : Q) (s : Subtitle) : bool :=
  Qle_bool start_time (sub_start s) && Qle_bool (sub_end s) end_time.

Definition deref (h : store) (r : ref) : option Subtitle := nth_error h r.

Fixpoint update (r : ref) (f : Subtitle -> Subtitle) (h : store) : store :=
  match h with
  | [] => []
  | s :: rest =>
      match r with
      | O => f s :: rest
      | S r' => s :: update r' f rest
      end
  end.

(** Lines 186-189: the list comprehension. *)
Definition trimmed_refs (start_time end_time : Q) (h : store) : list ref :=
  filter (fun r => match deref h r with
                   | Some s => in_window start_time end_time s
                   | None => false
                   end)
         (seq 0 (length h)).

(** Lines 191-192: the two in-place subtractions. *)
Definition to_local (start_time : Q) (s : Subtitle) : Subtitle :=
  {| sub_start := sub_start s - start_time;
     sub_end := sub_end s - start_time;
     sub_text := sub_text s |}.

(** Lines 190-192: the loop over [trimmed_subtitles]. *)
Fixpoint normalize_loop (start_time : Q) (refs : list ref) (h : store) : store :=
  match refs with
  | [] => h
  | r :: rest => normalize_loop start_time rest (update r (to_local start_time) h)
  end.

Definition read_all (h : store) (refs : list ref) : list Subtitle :=
  flat_map (fun r => match deref h r with Some s => [s] | None => [] end) refs.

(** The value of [trimmed_subtitles] that is rendered and written to the
    sidecar file. *)
Definition trim_subtitles (start_time end_time : Q) (subtitles : list Subtitle)
  : list Subtitle :=
  let trimmed_subtitles := trimmed_refs start_time end_time subtitles in
  let h := normalize_loop start_time trimmed_subtitles subtitles in
  read_all h trimmed_subtitles.

(** ** VideoProcessor._crop_to_aspect_ratio (lines 279-304) *)

(** What the function does to the clip: a call of [video.crop] with these
    bounds, or the clip returned as it is. *)
Inductive crop_action :=
| Crop (x1 y1 x2 y2 : Z)
| Uncropped.

Definition _crop_to_aspect_ratio (target_aspect_ratio : Q) (width height : Z)
  : result crop_action :=
  input_aspect_ratio <- true_div width height ;;
  if Qlt_bool target_aspect_ratio input_aspect_ratio then
    let target_width := int_ (inject_Z height * target_aspect_ratio) in
    let crop_x := ((width - target_width) / 2)%Z in
    Ok (Crop crop_x 0 (crop_x + target_width) height)
  else if Qlt_bool input_aspect_ratio target_aspect_ratio then
    scaled <- float_div (inject_Z width) target_aspect_ratio ;;
    let target_height := int_ scaled in
    let crop_y := ((height - target_height) / 2)%Z in
    Ok (Crop 0 crop_y width (crop_y + target_height))
  else Ok Uncropped.

(** Lines 221-247: the two targets the system uses. *)
Definition _process_main_video_full (width height : Z) : result crop_action :=
  _crop_to_aspect_ratio (9 / 16) width height.

Definition _process_main_video_split (width height : Z) : result crop_action :=
  _crop_to_aspect_ratio (9 / 8) width height.

(** The pixel bounds of the returned clip inside the [width] x [height]
    frame: (x1, y1, x2, y2). *)
Definition bounds (width height : Z) (a : crop_action) : Z * Z * Z * Z :=
  match a with
  | Crop x1 y1 x2 y2 => (x1, y1, x2, y2)
  | Uncropped => (0, 0, width, height)
  end%Z.

Definition inside_frame (width height : Z) (b : Z * Z * Z * Z) : Prop :=
  let '(x1, y1, x2, y2) := b in
  (0 <= x1 /\ x1 <= x2 /\ x2 <= width /\ 0 <= y1 /\ y1 <= y2 /\ y2 <= height)%Z.

End VideoProcessor.

(* ================================================================== *)
(** * main.py                                                           *)
(* ================================================================== *)

Module Main.
Import Py PyStr.

(** The dataclass [HighlightSegment] of [TranscriptionAnalyzer.py]. *)
Record HighlightSegment := mkHighlightSegment {
  start : Q;
  end_ : Q;
  content : str
}.

(** The fields of [ProcessingConfig] that [process_highlights] reads. *)
Record ProcessingConfig := mkProcessingConfig {
  add_subtitles : bool;
  subtitles_language : string;
  subtitle_position : string;
  use_additional_video : bool
}.

(** The records written through [logging]. *)
Inductive log_record :=
| Info_starting
| Info_processing (idx total : nat)
| Info_time_range (start_time end_time : Q)
| Info_saved (output_path : string)
| Error_failed (idx : nat) (e : exn).

(** The arguments of one call of [VideoProcessor.process_video]. *)
Record render_call := mkRenderCall {
  input_path : string;
  start_time : Q;
  end_time : Q;
  language : string;
  with_subtitles : bool;
  with_additional_video : bool;
  position : string
}.

(** What a run does, in order: log records and calls of the renderer. *)
Inductive event :=
| Logged (r : log_record)
| Called_VideoProcessor
| Called_process_video (c : render_call).

Section Run.

(** The file system, codecs and models the renderer works on. *)
Variable World : Type.

(** [VideoProcessor()] and [VideoProcessor.process_video]: external, with
    arbitrary effects on the world and free to raise. *)
Variable new_VideoProcessor : World -> World * result unit.
Variable process_video : render_call -> World -> World * result string.

Record state := mkState {
  world : World;
  trace : list event
}.

(** Computations with effects on the state that return or raise. *)
Definition M (A : Type) : Type := state -> state * result A.

Definition ret {A} (a : A) : M A := fun st => (st, Ok a).

Definition seq_ {A B} (c : M A) (k : A -> M B) : M B :=
  fun st =>
    match c st with
    | (st', Ok a) => k a st'
    | (st', Raise e) => (st', Raise e)
    end.

(** [try: body except Exception as e: handler] *)
Definition try_except {A} (body : M A) (handler : exn -> M A) : M A :=
  fun st =>
    match body st with
    | (st', Ok a) => (st', Ok a)
    | (st', Raise e) => handler e st'
    end.

Definition emit (ev : event) (st : state) : state :=
  {| world := world st; trace := trace st ++ [ev] |}.

Definition log (r : log_record) : M unit :=
  fun st => (emit (Logged r) st, Ok tt).

Definition call_VideoProcessor : M unit :=
  fun st =>
    let (w, r) := new_VideoProcessor (world st) in
    ({| world := w; trace := trace st ++ [Called_VideoProcessor] |}, r).

Definition call_process_video (c : render_call) : M string :=
  fun st =>
    let (w, r) := process_video c (world st) in
    ({| world := w; trace := trace st ++ [Called_process_video c] |}, r).

(** Lines 230-238: the arguments of the call for one highlight. *)
Definition render_call_of (video_path : string) (config : ProcessingConfig)
    (highlight : HighlightSegment) : render_call :=
  {| input_path := video_path;
     start_time := start highlight;
     end_time := end_ highlight;
     language := subtitles_language config;
     with_subtitles := add_subtitles config;
     with_additional_video := use_additional_video config;
     position := subtitle_position config |}.

(** Lines 226-239: the body of the [try]. *)
Definition try_body (video_path : string) (config : ProcessingConfig)
    (idx total : nat) (highlight : HighlightSegment) : M unit :=
  seq_ call_VideoProcessor (fun _ =>
  seq_ (log (Info_processing idx total)) (fun _ =>
  seq_ (log (Info_time_range (start highlight) (end_ highlight))) (fun _ =>
  seq_ (call_process_video (render_call_of video_path config highlight))
       (fun output_path =>
  log (Info_saved output_path))))).

(** Lines 225-243: one iteration, the [try] with its handler. *)
Definition iteration (video_path : string) (config : ProcessingConfig)
    (idx total : nat) (highlight : HighlightSegment) : M unit :=
  try_except (try_body video_path config idx total highlight)
             (fun e => log (Error_failed idx e)).

(** Line 224: [for idx, highlight in enumerate(highlights, start=idx)]. *)
Fixpoint for_highlights (video_path : string) (config : ProcessingConfig)
    (total : nat) (highlights : list HighlightSegment) (idx : nat) : M unit :=
  match highlights with
  | [] => ret tt
  | highlight :: rest =>
      seq_ (iteration video_path config idx total highlight) (fun _ =>
      for_highlights video_path config total rest (S idx))
  end.

(** Lines 220-243. *)
Definition process_highlights (video_path : string)
    (highlights : list HighlightSegment) (config : ProcessingConfig) : M unit :=
  seq_ (log Info_starting) (fun _ =>
  for_highlights video_path config (length highlights) highlights 1).

(** The number of times a [try] block was entered: it starts with the call
    of [VideoProcessor()]. *)
Definition attempts (t : list event) : nat :=
  length (filter (fun ev => match ev with
                            | Called_VideoProcessor => true
                            | _ => false
                            end) t).

(** The calls of [process_video], in order. *)
Definition render_calls (t : list event) : list render_call :=
  flat_map (fun ev => match ev with
                      | Called_process_video c => [c]
                      | _ => []
                      end) t.

End Run.

(** A renderer over a world that counts the files written: it fails on
    every highlight that starts at second 20. *)
Definition demo_new_VideoProcessor (w : nat) : nat * result unit := (w, Ok tt).

Definition demo_process_video (c : render_call) (w : nat) : nat * result string :=
  if Qeq_bool (start_time c) 20
  then (w, Raise (OtherException "no audio stream"))
  else (S w, Ok "output/video_highlight.mp4"%string).

Definition demo_config : ProcessingConfig :=
  {| add_subtitles := false;
     subtitles_language := "en";
     subtitle_position := "bottom";
     use_additional_video := false |}.

Definition demo_highlights : list HighlightSegment :=
  [ mkHighlightSegment 10 15 (py "One.");
    mkHighlightSegment 20 25 (py "Two.");
    mkHighlightSegment 30 35 (py "Three.") ].

Definition demo_state : state nat := {| world := 0%nat; trace := [] |}.

End Main.

(* ================================================================== *)
(** * modules/VideoProcessor.py: the caption pipeline                   *)
(* ================================================================== *)

Module Captions.
Import Py PyStr VideoProcessor.
Local Open Scope py_scope.
Local Open Scope Q_scope.

(** Lines 83-85: [short_subtitles.extend(self._split_subtitle(subtitle))]
    for every subtitle, in order. *)
Fixpoint extend_all (subtitles : list Subtitle) : result (list Subtitle) :=
  match subtitles with
  | [] => Ok []
  | subtitle :: rest =>
      chunks <- _split_subtitle subtitle ;;
      short_subtitles <- extend_all rest ;;
      Ok (chunks ++ short_subtitles)
  end.

(** Lines 74-78: the subtitle of one segment, its text stripped. *)
Definition stripped (segment : Subtitle) : Subtitle :=
  {| sub_start := sub_start segment;
     sub_end := sub_end segment;
     sub_text := strip (sub_text segment) |}.

(** SubtitleProcessor.extract_subtitles (lines 59-87), from the segments
    [result['segments']] that the speech model returned. *)
Definition extract_subtitles (segments : list Subtitle) : result (list Subtitle) :=
  let original_subtitles := map stripped segments in
  extend_all original_subtitles.

(** Lines 183-192 of [process_video] with [add_subtitles] set: the captions
    that are rendered and written to the sidecar file. *)
Definition rendered_captions (segments : list Subtitle)
    (start_time end_time : Q) : result (list Subtitle) :=
  subtitles <- extract_subtitles segments ;;
  Ok (trim_subtitles start_time end_time subtitles).

(** The chunks of a caption when nothing raises. *)
Definition chunks_of (subtitle : Subtitle) : list Subtitle :=
  map (chunk_at subtitle (split (sub_text subtitle))
         (sub_end subtitle - sub_start subtitle))
      (range 0 (length (split (sub_text subtitle))) 3).

(** The number of words of a caption text. *)
Definition word_count (c : Subtitle) : nat := length (split (sub_text c)).

(** Each caption ends where the next one starts. *)
Fixpoint abutting (l : list Subtitle) : Prop :=
  match l with
  | [] => True
  | a :: rest =>
      match rest with
      | [] => True
      | b :: _ => sub_end a == sub_start b /\ abutting rest
      end
  end.

(** The starts never go back. *)
Fixpoint starts_ascend (l : list Subtitle) : Prop :=
  match l with
  | [] => True
  | a :: rest =>
      match rest with
      | [] => True
      | b :: _ => sub_start a <= sub_start b /\ starts_ascend rest
      end
  end.

Definition last_error {A} (l : list A) : option A :=
  match l with
  | [] => None
  | a :: rest => Some (last rest a)
  end.

(** A caption of seven words over the seconds 10 to 17. *)
Definition seven_words : Subtitle :=
  mkSubtitle 10 17 (py "one two three four five six seven").

End Captions.

(* ================================================================== *)
(** * Exceptions of the selection and input code                        *)
(* ================================================================== *)

Module PyErr.

(** The exceptions this code raises and handles, with their messages. *)
Inductive error :=
| IndexError (msg : string)
| KeyError (key : string)
| ValueError (msg : string)
| SubprocessError (msg : string)
| EOFError.

Inductive outcome (A : Type) :=
| Done (a : A)
| Fail (e : error).
Arguments Done {A} a.
Arguments Fail {A} e.

Definition and_then {A B} (r : outcome A) (k : A -> outcome B) : outcome B :=
  match r with
  | Done a => k a
  | Fail e => Fail e
  end.

(** [str(e)]: the message, and for a [KeyError] the [repr] of the key. *)
Definition str_of_error (e : error) : string :=
  match e with
  | IndexError msg => msg
  | KeyError key => ("'" ++ key ++ "'")%string
  | ValueError msg => msg
  | SubprocessError msg => msg
  | EOFError => ""%string
  end.


End PyErr.

(* ================================================================== *)
(** * modules/VideoProcessor.py: file names and the additional video   *)
(* ================================================================== *)

Module OutputFiles.
Import PyStr.

(** [s.endswith(suffix)] *)
Definition endswith (s suffix : str) : bool :=
  startswith (rev s) (rev suffix).

(** The part of [s] before its last [sep], if [sep] occurs in [s]. *)
Fixpoint before_last (sep : ascii) (s : str) : option str :=
  match s with
  | [] => None
  | c :: r =>
      match before_last sep r with
      | Some head => Some (c :: head)
      | None => if Ascii.eqb c sep then Some [] else None
      end
  end.

(** [s.rsplit(sep, 1)[0]] for a separator of one character. *)
Definition rsplit1_head (sep : ascii) (s : str) : str :=
  match before_last sep s with
  | Some head => head
  | None => s
  end.

(** Lines 325-338, from the base name of the input (the result of
    [os.path.splitext(os.path.basename(input_path))[0]]) and the formatted
    current time. *)
Definition _generate_output_filename (base_name current_datetime : str) : str :=
  py "output/" ++ base_name ++ py "_highlight_" ++ current_datetime
  ++ py ".mp4".

(** Line 215: the name of the sidecar caption file. *)
Definition subtitles_filename (output_filename : str) : str :=
  rsplit1_head "."%char output_filename ++ py "_subtitles.json".

End OutputFiles.

Module AdditionalVideo.
Import PyStr PyErr OutputFiles.
Local Open Scope Q_scope.

(** Line 261: the entries of the directory that are video files. *)
Definition video_files (listing : list str) : list str :=
  filter (fun f => existsb (endswith f) [py ".mp4"; py ".avi"; py ".mov"])
         listing.

(** [random.choice(seq)], from the draw of the generator. *)
Definition random_choice {A} (draw : nat) (seq : list A) : outcome A :=
  match seq with
  | [] => Fail (IndexError "Cannot choose from an empty sequence")
  | _ :: _ =>
      match nth_error seq (draw mod length seq) with
      | Some a => Done a
      | None => Fail (IndexError "list index out of range")
      end
  end.

(** [max(0, x)] *)
Definition max0 (x : Q) : Q := if Qle_bool x 0 then 0 else x.

(** [random.uniform(a, b)], from the draw [u] of [random.random()]. *)
Definition random_uniform (u a b : Q) : Q := a + (b - a) * u.

(** What lines 260-267 select: the file, and the window cut out of it. *)
Record selection := mkSelection {
  random_video : str;
  random_start : Q;
  random_stop : Q
}.

(** Lines 260-267 of [_get_random_additional_video]: [listing] is the
    result of [os.listdir], [draw] and [u] are the two draws of the random
    generator and [duration_of] gives the duration of a video file. *)
Definition select_additional_video (listing : list str) (draw : nat) (u : Q)
    (duration_of : str -> Q) (duration : Q) : outcome selection :=
  let video_files := video_files listing in
  and_then (random_choice draw video_files) (fun chosen =>
  let max_start := max0 (duration_of chosen - duration) in
  let start := random_uniform u 0 max_start in
  Done {| random_video := chosen;
          random_start := start;
          random_stop := start + duration |}).

End AdditionalVideo.

(* ================================================================== *)
(** * modules/TranscriptionAnalyzer.py: the response of the service    *)
(* ================================================================== *)

Module HighlightExtraction.
Import PyStr PyErr TranscriptionAnalyzer Main.

(** Lines 120-129 of [load_transcription], from the parsed file. *)
Definition load_transcription (data : list Segment) : str :=
  join (py " ") (map seg_text data).










End HighlightExtraction.

(* ================================================================== *)
(** * modules/YouTubeDownloader.py                                      *)
(* ================================================================== *)

Module YouTubeDownloader.
Import PyStr.

(** The character class of line 44, by code point: less-than,
    greater-than, colon, double quote, slash, backslash, bar, question mark
    and asterisk. *)
Definition is_invalid_char (c : ascii) : bool :=
  let n := nat_of_ascii c in
  (n =? 60) || (n =? 62) || (n =? 58) || (n =? 34) || (n =? 47)
  || (n =? 92) || (n =? 124) || (n =? 63) || (n =? 42).

(** [s.replace(x, '')] for a one-character [x]. *)
Definition remove_char (x : ascii) (s : str) : str :=
  filter (fun c => negb (Ascii.eqb c x)) s.

(** Lines 33-47. *)
Definition _sanitize_filename (filename : str) : str :=
  let filename := filter (fun c => negb (is_invalid_char c)) filename in
  strip (remove_char "`"%char (remove_char "'"%char filename)).

(** A character that a sanitized name can hold. *)
Definition is_safe_char (c : ascii) : bool :=
  negb (is_invalid_char c) && negb (Ascii.eqb c "'"%char)
  && negb (Ascii.eqb c "`"%char).

End YouTubeDownloader.

(* ================================================================== *)
(** * main.py: the interactive configuration                            *)
(* ================================================================== *)

Module Cli.
Import PyStr PyErr.

(** [str.lower] on one code point below 256: the letters A-Z and the
    capital letters of Latin-1 (192-222 without the multiplication sign
    215) move up by 32. *)
Definition lower_char (c : ascii) : ascii :=
  let n := nat_of_ascii c in
  if ((65 <=? n) && (n <=? 90))
     || ((192 <=? n) && (n <=? 214))
     || ((216 <=? n) && (n <=? 222))
  then ascii_of_nat (n + 32) else c.

Definition lower (s : str) : str := map lower_char s.

Fixpoint str_eqb (a b : str) : bool :=
  match a, b with
  | [], [] => true
  | x :: a', y :: b' => Ascii.eqb x y && str_eqb a' b'
  | _, _ => false
  end.

(** [s in l] for a list of strings. *)
Definition str_in (s : str) (l : list str) : bool := existsb (str_eqb s) l.

(** The dataclass [ProcessingConfig] (lines 12-23), all fields. *)
Record ProcessingConfig := mkProcessingConfig {
  download : bool;
  language : str;
  num_highlights : Z;
  min_length : Z;
  max_length : Z;
  add_subtitles : bool;
  subtitles_language : str;
  subtitle_position : str;
  use_additional_video : bool
}.

Definition valid_positions : list str := [py "bottom"; py "center"; py "top"].

Section Input.

(** The builtin [int] on a string: [None] when it raises [ValueError]. *)
Variable int_of_str : str -> option Z.

(** Standard input is the list of the lines still to be read; [input()]
    takes the first one and raises [EOFError] when there is none. What is
    printed is not modelled. Each function returns its result and the
    lines it has not read. *)
Definition reading (A : Type) : Type := list str -> outcome A * list str.

Definition then_read {A B} (c : reading A) (k : A -> reading B) : reading B :=
  fun stdin =>
    match c stdin with
    | (Done a, rest) => k a rest
    | (Fail e, rest) => (Fail e, rest)
    end.

(** Lines 33-44. *)
Fixpoint get_yes_no_input (default : bool) (stdin : list str)
  : outcome bool * list str :=
  match stdin with
  | [] => (Fail EOFError, [])
  | line :: rest =>
      let response := lower (strip line) in
      if negb (truthy response) then (Done default, rest)
      else if str_in response [py "y"; py "yes"] then (Done true, rest)
      else if str_in response [py "n"; py "no"] then (Done false, rest)
      else get_yes_no_input default rest
  end.

Definition below (value : Z) (bound : option Z) : bool :=
  match bound with Some m => (value <? m)%Z | None => false end.

Definition above (value : Z) (bound : option Z) : bool :=
  match bound with Some m => (m <? value)%Z | None => false end.

(** Lines 46-63. *)
Fixpoint get_int_input (default : Z) (min_value max_value : option Z)
    (stdin : list str) : outcome Z * list str :=
  match stdin with
  | [] => (Fail EOFError, [])
  | line :: rest =>
      let response := strip line in
      if negb (truthy response) then (Done default, rest)
      else match int_of_str response with
           | Some value =>
               if below value min_value
               then get_int_input default min_value max_value rest
               else if above value max_value
               then get_int_input default min_value max_value rest
               else (Done value, rest)
           | None => get_int_input default min_value max_value rest
           end
  end.

(** Lines 65-74. *)
Fixpoint get_language_input (default : str) (stdin : list str)
  : outcome str * list str :=
  match stdin with
  | [] => (Fail EOFError, [])
  | line :: rest =>
      let response := lower (strip line) in
      if negb (truthy response) then (Done default, rest)
      else if (length response =? 2)%nat then (Done response, rest)
      else get_language_input default rest
  end.

(** Lines 76-86. *)
Fixpoint get_position_input (default : str) (stdin : list str)
  : outcome str * list str :=
  match stdin with
  | [] => (Fail EOFError, [])
  | line :: rest =>
      let response := lower (strip line) in
      if negb (truthy response) then (Done default, rest)
      else if str_in response valid_positions then (Done response, rest)
      else get_position_input default rest
  end.

(** Lines 88-114. *)
Definition get_interactive_config : reading ProcessingConfig :=
  then_read (get_yes_no_input false) (fun download =>
  then_read (get_language_input (py "en")) (fun language =>
  then_read (get_int_input 10 (Some 1%Z) (Some 100%Z)) (fun num_highlights =>
  then_read (get_int_input 15 (Some 1%Z) None) (fun min_length =>
  then_read (get_int_input 40 None None) (fun max_length =>
  let '(min_length, max_length) :=
    if (max_length <=? min_length)%Z then (15%Z, 40%Z)
    else (min_length, max_length) in
  then_read (get_yes_no_input false) (fun add_subtitles =>
  then_read
    (if add_subtitles
     then then_read (get_language_input (py "en")) (fun subtitles_language =>
          then_read (get_position_input (py "bottom")) (fun subtitle_position =>
          fun stdin => (Done (subtitles_language, subtitle_position), stdin)))
     else fun stdin => (Done (py "en", py "bottom"), stdin))
    (fun '(subtitles_language, subtitle_position) =>
  then_read (get_yes_no_input true) (fun use_additional_video =>
  fun stdin =>
    (Done {| download := download;
             language := language;
             num_highlights := num_highlights;
             min_length := min_length;
             max_length := max_length;
             add_subtitles := add_subtitles;
             subtitles_language := subtitles_language;
             subtitle_position := subtitle_position;
             use_additional_video := use_additional_video |},
     stdin))))))))).

End Input.

(** A stand-in for [int] that knows the answers of one session. *)
Definition demo_int (s : str) : option Z :=
  if str_eqb s (py "7") then Some 7%Z
  else if str_eqb s (py "500") then Some 500%Z
  else if str_eqb s (py "30") then Some 30%Z
  else if str_eqb s (py "20") then Some 20%Z
  else None.

(** The values of [ProcessingConfig()]. *)
Definition default_config : ProcessingConfig :=
  {| download := false;
     language := py "en";
     num_highlights := 10;
     min_length := 15;
     max_length := 40;
     add_subtitles := false;
     subtitles_language := py "en";
     subtitle_position := py "bottom";
     use_additional_video := true |}.

End Cli.

(* ================================================================== *)
(** * modules/AudioTranscriber.py                                       *)
(* ================================================================== *)

Module AudioTranscriber.
Import PyStr PyErr TranscriptionAnalyzer.

(** The files that exist, by path. *)
Definition files := list str.

Definition path_exists (p : str) (fs : files) : bool :=
  existsb (Cli.str_eqb p) fs.

Definition unlink (p : str) (fs : files) : files :=
  filter (fun q => negb (Cli.str_eqb p q)) fs.

Definition mkdir (p : str) (fs : files) : files := p :: fs.

Section Transcribe.

(** [video_path.parent] and [temp_dir / f"{video_path.stem}_audio.wav"]. *)
Variable parent : str -> str.
Variable audio_path_in : str -> str -> str.

(** [_check_audio_stream], [subprocess.run] on the ffmpeg command (return
    code and standard error), and the speech model with the iteration over
    its segments: external, free to change the files and to raise. *)
Variable check_audio_stream : str -> files -> outcome bool.
Variable run_ffmpeg : str -> str -> files -> files * outcome (Z * string).
Variable model_transcribe : str -> string -> nat -> files
                            -> files * outcome (list Segment).

(** Lines 59-103. *)
Definition _extract_audio (video_path output_path : str) (fs : files)
  : files * outcome str :=
  match check_audio_stream video_path fs with
  | Fail e => (fs, Fail e)
  | Done false =>
      (fs, Fail (ValueError "No audio stream found in the video file"))
  | Done true =>
      let (fs', ran) := run_ffmpeg video_path output_path fs in
      match ran with
      | Done (returncode, stderr) =>
          if (returncode =? 0)%Z then (fs', Done output_path)
          else (fs', Fail (ValueError
                             ("Error extracting audio: "
                              ++ str_of_error
                                   (ValueError ("FFmpeg error: " ++ stderr)))))
      | Fail (SubprocessError msg) =>
          (fs', Fail (ValueError ("Error running FFmpeg: " ++ msg)))
      | Fail e =>
          (fs', Fail (ValueError ("Error extracting audio: "
                                  ++ str_of_error e)))
      end
  end.

(** Lines 136-157: the body of the [try]. *)
Definition transcribe_body (video_path audio_path : str) (language : string)
    (beam_size : nat) (fs : files) : files * outcome (list Segment) :=
  match _extract_audio video_path audio_path fs with
  | (fs1, Fail e) => (fs1, Fail e)
  | (fs1, Done _) =>
      match model_transcribe audio_path language beam_size fs1 with
      | (fs2, Fail e) => (fs2, Fail e)
      | (fs2, Done segments) =>
          (fs2, Done (map (fun segment =>
                             mkSegment (strip (seg_text segment))
                                       (seg_start segment)
                                       (seg_end segment)) segments))
      end
  end.

(** Lines 105-165. *)
Definition transcribe_video (video_path : str) (language : string)
    (temp_dir : option str) (beam_size : nat) (fs : files)
  : files * outcome (list Segment) :=
  if negb (path_exists video_path fs)
  then (fs, Fail (ValueError
                    ("Video file not found: "
                     ++ String.string_of_list_ascii video_path)))
  else
    let temp_dir :=
      match temp_dir with
      | Some d => if truthy d then d else parent video_path
      | None => parent video_path
      end in
    let fs := if path_exists temp_dir fs then fs else mkdir temp_dir fs in
    let audio_path := audio_path_in temp_dir video_path in
    let (fs1, r) :=
      match transcribe_body video_path audio_path language beam_size fs with
      | (fs1, Done transcription) => (fs1, Done transcription)
      | (fs1, Fail e) =>
          (fs1, Fail (ValueError ("Error during transcription: "
                                  ++ str_of_error e)))
      end in
    (if path_exists audio_path fs1 then unlink audio_path fs1 else fs1, r).

(** The directory the audio file is written to. *)
Definition temp_dir_of (video_path : str) (temp_dir : option str) : str :=
  match temp_dir with
  | Some d => if truthy d then d else parent video_path
  | None => parent video_path
  end.

End Transcribe.

(** A session in which ffmpeg writes the audio file and then fails. *)
Definition demo_parent (video_path : str) : str := py "videos".

Definition demo_audio_path_in (temp_dir video_path : str) : str :=
  temp_dir ++ py "/talk_audio.wav".

Definition demo_check_audio_stream (video_path : str) (fs : files)
  : outcome bool := Done true.

Definition demo_run_ffmpeg (video_path output_path : str) (fs : files)
  : files * outcome (Z * string) :=
  (output_path :: fs, Done (1%Z, "codec not found"%string)).

Definition demo_model_transcribe (audio_path : str) (language : string)
    (beam_size : nat) (fs : files) : files * outcome (list Segment) :=
  (fs, Done []).

Definition demo_files : files := [py "videos"; py "videos/talk.mp4"].

End AudioTranscriber.

(* ================================================================== *)
(** * main.py: the records of a rendering batch                         *)
(* ================================================================== *)

Module BatchLog.
Import Py Main.

(** The records that close an iteration: a saved clip or a failure. *)
Definition outcome_records (t : list event) : list log_record :=
  flat_map (fun ev => match ev with
                      | Logged (Info_saved p) => [Info_saved p]
                      | Logged (Error_failed idx e) => [Error_failed idx e]
                      | _ => []
                      end) t.

(** The record closes the iteration of index [idx]. *)
Definition closes (idx : nat) (r : log_record) : Prop :=
  (exists p, r = Info_saved p) \/ (exists e, r = Error_failed idx e).

End BatchLog.

(* ================================================================== *)
(** * Transcripts in time order                                         *)
(* ================================================================== *)

Module Ordered.
Import TranscriptionAnalyzer.
Local Open Scope Q_scope.

(** No segment ends before it starts, and every segment ends before the
    later ones start: the transcript as the speech model writes it. *)
Fixpoint in_time_order (tr : list Segment) : Prop :=
  match tr with
  | [] => True
  | s :: rest =>
      seg_start s <= seg_end s
      /\ Forall (fun x => seg_end s <= seg_start x) rest
      /\ in_time_order rest
  end.

End Ordered.

(* ================================================================== *)
(** * Timestamp reconciliation                                          *)
(* ================================================================== *)

Import Py PyStr TranscriptionAnalyzer VideoProcessor.

Unset Implicit Arguments.

Section Reconciliation.

Variables first_sentence last_sentence : str.

Local Notation "'scan'" := (find_segments first_sentence last_sentence).

(** Once the start anchor is set and the end anchor is not, the scan stops
    at the next segment that contains the last sentence. *)
Lemma find_segments_started tr s :
  scan tr (Some s) None = (Some s, earliest_match last_sentence tr).
Proof.
  induction tr as [|a tr IH]; simpl; [reflexivity|].
  rewrite andb_false_r. unfold matches.
  destruct (contains last_sentence (seg_text a)); simpl; [reflexivity|].
  exact IH.
Qed.

(** The start anchor is always the earliest segment with the first sentence. *)
Lemma find_segments_start tr en :
  fst (scan tr None en) = earliest_match first_sentence tr.
Proof.
  revert en. induction tr as [|a tr IH]; intros en; simpl;
    [reflexivity|].
  unfold matches. rewrite andb_true_r.
  destruct (contains first_sentence (seg_text a)); simpl.
  - destruct (contains last_sentence (seg_text a)); simpl; [reflexivity|].
    destruct en; simpl; [reflexivity|].
    now rewrite find_segments_started.
  - apply IH.
Qed.

Lemma latest_match_cons a tr :
  latest_match last_sentence (a :: tr)
  = or_else (latest_match last_sentence tr)
            (if matches last_sentence a then Some a else None).
Proof.
  unfold latest_match. simpl rev.
  induction (rev tr) as [|b l IH]; simpl.
  - destruct (matches last_sentence a); reflexivity.
  - destruct (matches last_sentence b); [reflexivity|exact IH].
Qed.

(** The end anchor while no segment has contained the first sentence. *)
Lemma find_segments_unstarted tr en :
  cut_at_first (matches first_sentence) tr = None ->
  scan tr None en = (None, or_else (latest_match last_sentence tr) en).
Proof.
  revert en. induction tr as [|a tr IH]; intros en Hcut; simpl;
    [reflexivity|].
  simpl in Hcut. unfold matches in Hcut |- *.
  destruct (contains first_sentence (seg_text a)) eqn:Ha; [discriminate|].
  destruct (cut_at_first _ tr) as [[[pre x] post]|] eqn:Hc; [discriminate|].
  simpl. rewrite IH by reflexivity.
  rewrite latest_match_cons. unfold matches.
  destruct (latest_match last_sentence tr); simpl; [reflexivity|].
  destruct (contains last_sentence (seg_text a)); reflexivity.
Qed.

(** The end anchor when a segment contains the first sentence. *)
Lemma find_segments_cut tr pre s post en :
  cut_at_first (matches first_sentence) tr = Some (pre, s, post) ->
  scan tr None en
  = (Some s,
     or_else (latest_match last_sentence (pre ++ [s]))
             (or_else en (earliest_match last_sentence post))).
Proof.
  revert pre en. induction tr as [|a tr IH]; intros pre en Hcut;
    simpl in Hcut; [discriminate|].
  unfold matches in Hcut. simpl.
  destruct (contains first_sentence (seg_text a)) eqn:Ha.
  - inversion Hcut; subst; clear Hcut. simpl.
    unfold latest_match, matches. simpl.
    destruct (contains last_sentence (seg_text s)); simpl; [reflexivity|].
    destruct en; simpl; [reflexivity|].
    now rewrite find_segments_started.
  - destruct (cut_at_first _ tr) as [[[pre' x] post']|] eqn:Hc; [|discriminate].
    inversion Hcut; subst; clear Hcut. simpl.
    rewrite (IH pre' _ eq_refl).
    rewrite latest_match_cons. unfold matches.
    destruct (latest_match last_sentence (pre' ++ [s])); simpl; [reflexivity|].
    destruct (contains last_sentence (seg_text a)); reflexivity.
Qed.

Lemma find_segments_end tr :
  snd (scan tr None None) = end_anchor first_sentence last_sentence tr.
Proof.
  unfold end_anchor.
  destruct (cut_at_first (matches first_sentence) tr) as [[[pre s] post]|] eqn:Hc.
  - now erewrite find_segments_cut by exact Hc.
  - rewrite find_segments_unstarted by exact Hc. simpl.
    now destruct (latest_match last_sentence tr).
Qed.

End Reconciliation.

Section ReconciliationTheorems.

Lemma cut_at_first_spec p tr pre s post :
  cut_at_first p tr = Some (pre, s, post) ->
  tr = pre ++ s :: post /\ p s = true /\ (forall x, In x pre -> p x = false).
Proof.
  revert pre. induction tr as [|a tr IH]; intros pre H; simpl in H;
    [discriminate|].
  destruct (p a) eqn:Ha.
  - inversion H; subst. repeat split; auto. intros x [].
  - destruct (cut_at_first p tr) as [[[pre' x'] post']|]; [|discriminate].
    inversion H; subst. destruct (IH pre' eq_refl) as (-> & Hs & Hpre).
    repeat split; auto. intros x [<-|Hx]; auto.
Qed.

Lemma cut_at_first_none p tr :
  cut_at_first p tr = None -> forall x, In x tr -> p x = false.
Proof.
  induction tr as [|a tr IH]; simpl; intros H x; [intros []|].
  destruct (p a) eqn:Ha; [discriminate|].
  destruct (cut_at_first p tr) as [[[pre' x'] post']|]; [discriminate|].
  intros [<-|Hx]; auto.
Qed.

Lemma latest_match_sound lst tr e :
  latest_match lst tr = Some e -> In e tr /\ matches lst e = true.
Proof.
  unfold latest_match. intros H. apply find_some in H as [Hin Hm].
  split; [now apply in_rev|assumption].
Qed.

Lemma latest_match_complete lst tr x :
  In x tr -> matches lst x = true -> exists e, latest_match lst tr = Some e.
Proof.
  unfold latest_match. intros Hin Hm.
  destruct (find (matches lst) (rev tr)) as [e|] eqn:Hf; [now exists e|].
  apply in_rev in Hin. rewrite (find_none _ _ Hf x Hin) in Hm. discriminate.
Qed.

Lemma earliest_match_complete lst tr x :
  In x tr -> matches lst x = true -> exists e, earliest_match lst tr = Some e.
Proof.
  unfold earliest_match. intros Hin Hm.
  destruct (find (matches lst) tr) as [e|] eqn:Hf; [now exists e|].
  rewrite (find_none _ _ Hf x Hin) in Hm. discriminate.
Qed.

(** The end anchor is a segment of the transcript with the last sentence. *)
Lemma end_anchor_sound first lst tr e :
  end_anchor first lst tr = Some e -> In e tr /\ matches lst e = true.
Proof.
  unfold end_anchor.
  destruct (cut_at_first (matches first) tr) as [[[pre s] post]|] eqn:Hc.
  - apply cut_at_first_spec in Hc as (-> & _ & _).
    destruct (latest_match lst (pre ++ [s])) as [e'|] eqn:Hl; simpl; intros H.
    + inversion H; subst. apply latest_match_sound in Hl as [Hin Hm].
      split; [|assumption].
      apply in_app_or in Hin as [Hin|[<-|[]]]; apply in_or_app;
        [now left|right; now left].
    + apply find_some in H as [Hin Hm]. split; [|assumption].
      apply in_or_app. right. now right.
  - apply latest_match_sound.
Qed.

(** There is an end anchor as soon as one segment has the last sentence. *)
Lemma end_anchor_complete first lst tr x :
  In x tr -> matches lst x = true -> exists e, end_anchor first lst tr = Some e.
Proof.
  unfold end_anchor. intros Hin Hm.
  destruct (cut_at_first (matches first) tr) as [[[pre s] post]|] eqn:Hc.
  - apply cut_at_first_spec in Hc as (-> & _ & _).
    destruct (latest_match lst (pre ++ [s])) as [e'|] eqn:Hl; simpl;
      [now exists e'|].
    apply in_app_or in Hin as [Hin|[<-|Hin]].
    + destruct (latest_match_complete lst (pre ++ [s]) x) as [e He];
        [apply in_or_app; now left|assumption|congruence].
    + destruct (latest_match_complete lst (pre ++ [s]) s) as [e He];
        [apply in_or_app; right; now left|assumption|congruence].
    + now apply earliest_match_complete with x.
  - now apply latest_match_complete with x.
Qed.

Lemma sentences_first_last content first lst :
  first_sentence_of content = Some first ->
  last_sentence_of content = Some lst ->
  exists rest, sentences_of content = first :: rest
               /\ lst = last (first :: rest) first.
Proof.
  unfold first_sentence_of, last_sentence_of.
  destruct (sentences_of content) as [|s rest]; simpl; [discriminate|].
  intros H1 H2. inversion H1; inversion H2; subst. now exists rest.
Qed.

(** Reconciliation in terms of the two anchors. *)
Lemma fix_highlight_timestamps_anchors h tr first lst :
  first_sentence_of (hl_content h) = Some first ->
  last_sentence_of (hl_content h) = Some lst ->
  _fix_highlight_timestamps h tr
  = {| hl_start := match earliest_match first tr with
                   | Some s => seg_start s
                   | None => hl_start h
                   end;
       hl_end := match end_anchor first lst tr with
                 | Some e => seg_end e
                 | None => hl_end h
                 end;
       hl_content := hl_content h |}.
Proof.
  intros Hf Hl.
  destruct (sentences_first_last _ _ _ Hf Hl) as (rest & Hs & ->).
  unfold _fix_highlight_timestamps. rewrite Hs. cbv beta iota zeta.
  set (l := last (first :: rest) first).
  pose proof (find_segments_start first l tr None) as Hst.
  pose proof (find_segments_end first l tr) as Hen.
  destruct (find_segments first l tr None None) as [s e].
  cbn [fst snd] in Hst, Hen. rewrite <- Hst, <- Hen.
  destruct h as [hs he hc]; destruct s, e; reflexivity.
Qed.

Lemma occurrences_witness lst tr :
  (0 < occurrences lst tr)%nat -> exists x, In x tr /\ matches lst x = true.
Proof.
  unfold occurrences. intros H.
  destruct (filter (matches lst) tr) as [|x l] eqn:Hf; [simpl in H; lia|].
  exists x. apply filter_In. rewrite Hf. now left.
Qed.

End ReconciliationTheorems.

Lemma unique_match (p : Segment -> bool) tr pre s post x :
  tr = pre ++ s :: post ->
  (forall y, In y (pre ++ post) -> p y = false) ->
  In x tr -> p x = true -> x = s.
Proof.
  intros -> Hno Hin Hp.
  apply in_app_or in Hin as [Hin|[Heq|Hin]]; [|now symmetry|].
  - rewrite Hno in Hp; [discriminate|apply in_or_app; now left].
  - rewrite Hno in Hp; [discriminate|apply in_or_app; now right].
Qed.

(** C1 as stated fails: with the first sentence and the last sentence both
    in the first segment, the scan stops there and the end is the end of
    that segment, not of the later segment that also has the last
    sentence. *)
Lemma end_is_latest_match_fails :
  ~ end_is_latest_match duplicate_highlight duplicate_transcript.
Proof.
  intros H.
  specialize (H (py "World.") (mkSegment (py "World.") 1 2)).
  assert (Hend : hl_end (_fix_highlight_timestamps duplicate_highlight
                           duplicate_transcript) = 2).
  { apply H; [reflexivity|vm_compute; lia|reflexivity]. }
  vm_compute in Hend. discriminate Hend.
Qed.

(** C1 (amended): when the last sentence of the content occurs in more than
    one segment, the start is set to the start of the earliest segment that
    contains the first sentence (and kept when there is none), and the end
    is set to the end of the segment [end_anchor] names: the latest segment
    with the last sentence among those up to and including the start anchor,
    failing that the earliest one after the start anchor, and the latest one
    of the whole transcript when there is no start anchor. *)
Theorem fix_timestamps_duplicate_last_sentence :
  forall h tr first lst,
    first_sentence_of (hl_content h) = Some first ->
    last_sentence_of (hl_content h) = Some lst ->
    (1 < occurrences lst tr)%nat ->
    let r := _fix_highlight_timestamps h tr in
    match earliest_match first tr with
    | Some s => hl_start r = seg_start s
    | None => hl_start r = hl_start h
    end
    /\ exists e, end_anchor first lst tr = Some e
                 /\ In e tr /\ matches lst e = true
                 /\ hl_end r = seg_end e.
Proof.
  intros h tr first lst Hf Hl Hocc r. subst r.
  rewrite (fix_highlight_timestamps_anchors h tr _ _ Hf Hl). simpl.
  split; [destruct (earliest_match first tr); reflexivity|].
  destruct (occurrences_witness lst tr) as (x & Hin & Hm); [lia|].
  destruct (end_anchor_complete first lst tr x Hin Hm) as [e He].
  exists e. rewrite He.
  destruct (end_anchor_sound _ _ _ _ He) as [Hine Hme]. auto.
Qed.

Lemma fix_timestamps_duplicate_last_sentence_witness :
  let r := _fix_highlight_timestamps duplicate_highlight duplicate_transcript in
  match earliest_match (py "Hello.") duplicate_transcript with
  | Some s => hl_start r = seg_start s
  | None => hl_start r = hl_start duplicate_highlight
  end
  /\ exists e, end_anchor (py "Hello.") (py "World.") duplicate_transcript = Some e
               /\ In e duplicate_transcript /\ matches (py "World.") e = true
               /\ hl_end r = seg_end e.
Proof.
  apply (fix_timestamps_duplicate_last_sentence
           duplicate_highlight duplicate_transcript (py "Hello.") (py "World."));
    [reflexivity|reflexivity|vm_compute; lia].
Defined.

(** C2: when the first sentence of the content occurs in exactly one segment
    and the last sentence in exactly one segment, reconciliation returns the
    highlight with the start of the former and the end of the latter, copied
    as they are; on the four-segment transcript of the end-to-end scenario
    the candidate 56.60-74.70 becomes 56.62-74.68. *)
Theorem fix_timestamps_unique_sentences :
  (forall h tr first lst pre s post pre' e post',
      first_sentence_of (hl_content h) = Some first ->
      last_sentence_of (hl_content h) = Some lst ->
      tr = pre ++ s :: post ->
      matches first s = true ->
      (forall x, In x (pre ++ post) -> matches first x = false) ->
      tr = pre' ++ e :: post' ->
      matches lst e = true ->
      (forall x, In x (pre' ++ post') -> matches lst x = false) ->
      _fix_highlight_timestamps h tr
      = {| hl_start := seg_start s; hl_end := seg_end e;
           hl_content := hl_content h |})
  /\ _fix_highlight_timestamps scenario_candidate scenario_transcript
     = {| hl_start := 56.62; hl_end := 74.68;
          hl_content := hl_content scenario_candidate |}.
Proof.
  split; [|vm_compute; reflexivity].
  intros h tr first lst pre s post pre' e post' Hf Hl Hs Hms Hus He Hme Hue.
  rewrite (fix_highlight_timestamps_anchors h tr _ _ Hf Hl).
  assert (Hins : In s tr) by (rewrite Hs; apply in_or_app; right; now left).
  assert (Hine : In e tr) by (rewrite He; apply in_or_app; right; now left).
  destruct (earliest_match_complete first tr s Hins Hms) as [s' Hs'].
  destruct (end_anchor_complete first lst tr e Hine Hme) as [e' He'].
  rewrite Hs', He'.
  apply find_some in Hs' as [Hin1 Hm1].
  apply end_anchor_sound in He' as [Hin2 Hm2].
  rewrite (unique_match (matches first) _ _ _ _ _ Hs Hus Hin1 Hm1).
  rewrite (unique_match (matches lst) _ _ _ _ _ He Hue Hin2 Hm2).
  reflexivity.
Qed.

Lemma fix_timestamps_unique_sentences_witness :
  _fix_highlight_timestamps scenario_candidate scenario_transcript
  = {| hl_start := seg_start (mkSegment scenario_text_1 56.62 65.12);
       hl_end := seg_end (mkSegment scenario_text_2 65.12 74.68);
       hl_content := hl_content scenario_candidate |}.
Proof.
  apply (proj1 fix_timestamps_unique_sentences
           scenario_candidate scenario_transcript
           scenario_text_1 scenario_text_2
           [] (mkSegment scenario_text_1 56.62 65.12)
           [ mkSegment scenario_text_2 65.12 74.68;
             mkSegment (py "What conclusions have I done?") 76.68 77.60;
             mkSegment (py "Let's find out!") 77.70 100.62 ]
           [ mkSegment scenario_text_1 56.62 65.12 ]
           (mkSegment scenario_text_2 65.12 74.68)
           [ mkSegment (py "What conclusions have I done?") 76.68 77.60;
             mkSegment (py "Let's find out!") 77.70 100.62 ]);
    try (vm_compute; reflexivity).
  - intros x [<-|[<-|[<-|[]]]]; vm_compute; reflexivity.
  - intros x [<-|[<-|[<-|[]]]]; vm_compute; reflexivity.
Defined.

(** C3 as stated fails: when no segment contains a sentence of the content,
    both boundaries keep the values of the input, which are boundaries of no
    segment. *)
Lemma boundaries_from_transcript_fails :
  ~ boundaries_from_transcript unrelated_highlight unrelated_transcript.
Proof.
  intros [(s & Hin & Hs) _].
  destruct Hin as [<-|[]]. vm_compute in Hs. discriminate Hs.
Qed.

(** C3 (amended): after reconciliation the start equals exactly the start of
    a segment of the list whenever some segment's text contains the first
    sentence of the content, and the end equals exactly the end of a segment
    of the list whenever some segment's text contains the last sentence. *)
Theorem fix_timestamps_boundaries_of_matches :
  forall h tr first lst,
    first_sentence_of (hl_content h) = Some first ->
    last_sentence_of (hl_content h) = Some lst ->
    let r := _fix_highlight_timestamps h tr in
    ((exists x, In x tr /\ matches first x = true) ->
     exists s, In s tr /\ matches first s = true /\ hl_start r = seg_start s)
    /\ ((exists x, In x tr /\ matches lst x = true) ->
        exists s, In s tr /\ matches lst s = true /\ hl_end r = seg_end s).
Proof.
  intros h tr first lst Hf Hl r. subst r.
  rewrite (fix_highlight_timestamps_anchors h tr _ _ Hf Hl). simpl. split.
  - intros (x & Hin & Hm).
    destruct (earliest_match_complete first tr x Hin Hm) as [s Hs].
    rewrite Hs. apply find_some in Hs as [Hins Hms]. now exists s.
  - intros (x & Hin & Hm).
    destruct (end_anchor_complete first lst tr x Hin Hm) as [e He].
    rewrite He. apply end_anchor_sound in He as [Hine Hme]. now exists e.
Qed.

Lemma fix_timestamps_boundaries_of_matches_witness :
  exists s, In s scenario_transcript
            /\ matches scenario_text_1 s = true
            /\ hl_start (_fix_highlight_timestamps scenario_candidate
                           scenario_transcript) = seg_start s.
Proof.
  apply (fix_timestamps_boundaries_of_matches
           scenario_candidate scenario_transcript
           scenario_text_1 scenario_text_2);
    [vm_compute; reflexivity|vm_compute; reflexivity|].
  exists (mkSegment scenario_text_1 56.62 65.12).
  split; [now left|vm_compute; reflexivity].
Defined.

(** C4: reconciliation keeps an unmatched boundary. If no segment's text
    contains the first sentence the start is the input start; if no
    segment's text contains the last sentence the end is the input end; if
    the content has no non-empty sentence the highlight is returned as it
    is. The content is never changed. *)
Theorem fix_timestamps_unmatched_boundary :
  forall h tr,
    let r := _fix_highlight_timestamps h tr in
    (forall first,
        first_sentence_of (hl_content h) = Some first ->
        (forall x, In x tr -> matches first x = false) ->
        hl_start r = hl_start h)
    /\ (forall lst,
           last_sentence_of (hl_content h) = Some lst ->
           (forall x, In x tr -> matches lst x = false) ->
           hl_end r = hl_end h)
    /\ (sentences_of (hl_content h) = [] -> r = h)
    /\ hl_content r = hl_content h.
Proof.
  intros h tr r. subst r.
  destruct (sentences_of (hl_content h)) as [|s0 rest] eqn:Hs.
  - unfold first_sentence_of, last_sentence_of, _fix_highlight_timestamps.
    rewrite Hs. simpl. repeat split; intros; discriminate.
  - assert (Hf : first_sentence_of (hl_content h) = Some s0)
      by (unfold first_sentence_of; now rewrite Hs).
    assert (Hl : last_sentence_of (hl_content h) = Some (last (s0 :: rest) s0))
      by (unfold last_sentence_of; now rewrite Hs).
    remember (last (s0 :: rest) s0) as l eqn:El. clear El.
    rewrite (fix_highlight_timestamps_anchors h tr _ _ Hf Hl).
    cbn [hl_start hl_end hl_content].
    repeat split.
    + intros first Hf' Hno. rewrite Hf in Hf'. inversion Hf'; subst.
      destruct (earliest_match first tr) as [s|] eqn:He; [|reflexivity].
      apply find_some in He as [Hin Hm]. rewrite (Hno s Hin) in Hm. discriminate.
    + intros lst Hl' Hno. rewrite Hl in Hl'. inversion Hl'; subst.
      destruct (end_anchor s0 lst tr) as [e|] eqn:He; [|reflexivity].
      apply end_anchor_sound in He as [Hin Hm].
      rewrite (Hno e Hin) in Hm. discriminate.
    + discriminate.
Qed.

Lemma fix_timestamps_unmatched_boundary_witness :
  hl_start (_fix_highlight_timestamps unrelated_highlight unrelated_transcript)
  = hl_start unrelated_highlight
  /\ hl_end (_fix_highlight_timestamps unrelated_highlight unrelated_transcript)
     = hl_end unrelated_highlight
  /\ _fix_highlight_timestamps (mkHighlight 1 2 (py "   ")) unrelated_transcript
     = mkHighlight 1 2 (py "   ").
Proof.
  destruct (fix_timestamps_unmatched_boundary unrelated_highlight
              unrelated_transcript) as (Hstart & Hend & _).
  destruct (fix_timestamps_unmatched_boundary (mkHighlight 1 2 (py "   "))
              unrelated_transcript) as (_ & _ & Hdeg & _).
  split; [|split].
  - apply (Hstart (py "Hello.")); [reflexivity|].
    intros x [<-|[]]; reflexivity.
  - apply (Hend (py "Hello.")); [reflexivity|].
    intros x [<-|[]]; reflexivity.
  - apply Hdeg. reflexivity.
Defined.

(* ================================================================== *)
(** * Words and sentences of a string                                   *)
(* ================================================================== *)

Section Words.

Lemma cons_word_word w ws :
  forallb (fun c => negb (is_space c)) w = true ->
  Forall (fun x => is_word x = true) ws ->
  Forall (fun x => is_word x = true) (cons_word w ws).
Proof.
  intros Hw Hws. destruct w as [|c w]; simpl; [assumption|].
  constructor; [|assumption]. unfold is_word. now rewrite Hw.
Qed.

Lemma split_scan_words s :
  forallb (fun c => negb (is_space c)) (fst (split_scan s)) = true
  /\ Forall (fun x => is_word x = true) (snd (split_scan s)).
Proof.
  induction s as [|c r [IHw IHws]]; simpl; [split; [reflexivity|constructor]|].
  destruct (split_scan r) as [w ws]. simpl in IHw, IHws.
  destruct (is_space c) eqn:Hc; simpl.
  - split; [reflexivity|now apply cons_word_word].
  - rewrite Hc. simpl. now split.
Qed.

(** Every element of [s.split()] is a word. *)
Lemma split_words s : Forall (fun x => is_word x = true) (split s).
Proof.
  unfold split. destruct (split_scan_words s) as [Hw Hws].
  destruct (split_scan s) as [w ws]. now apply cons_word_word.
Qed.

Lemma split_scan_app_word w r :
  forallb (fun c => negb (is_space c)) w = true ->
  split_scan (w ++ r) = (w ++ fst (split_scan r), snd (split_scan r)).
Proof.
  induction w as [|c w IH]; simpl; intros Hw.
  - now destruct (split_scan r).
  - apply andb_prop in Hw as [Hc Hw]. rewrite (IH Hw).
    apply negb_true_iff in Hc. now rewrite Hc.
Qed.

Lemma split_word_space w r :
  is_word w = true -> split (w ++ py " " ++ r) = w :: split r.
Proof.
  unfold is_word. intros Hw. apply andb_prop in Hw as [Hne Hw].
  unfold split. rewrite (split_scan_app_word _ _ Hw). simpl.
  destruct (split_scan r) as [w' ws]. simpl. rewrite app_nil_r.
  destruct w; [discriminate|reflexivity].
Qed.

Lemma split_single_word w : is_word w = true -> split w = [w].
Proof.
  unfold is_word. intros Hw. apply andb_prop in Hw as [Hne Hw].
  unfold split. rewrite <- (app_nil_r w) at 1.
  rewrite (split_scan_app_word _ _ Hw). simpl. rewrite app_nil_r.
  destruct w; [discriminate|reflexivity].
Qed.

(** Splitting the single-space join of words gives the words back. *)
Lemma split_join ws :
  Forall (fun x => is_word x = true) ws -> split (join (py " ") ws) = ws.
Proof.
  induction 1 as [|w ws Hw Hws IH]; [reflexivity|].
  destruct ws as [|w2 ws].
  - simpl. now apply split_single_word.
  - change (join (py " ") (w :: w2 :: ws))
      with (w ++ py " " ++ join (py " ") (w2 :: ws)).
    rewrite (split_word_space _ _ Hw). now rewrite IH.
Qed.

Lemma split_blank s : split s = [] <-> forallb is_space s = true.
Proof.
  unfold split. induction s as [|c r IH]; simpl; [tauto|].
  destruct (split_scan r) as [w ws]. destruct (is_space c); simpl.
  - exact IH.
  - split; discriminate.
Qed.

Lemma join_cons sep w l :
  l <> [] -> join sep (w :: l) = w ++ sep ++ join sep l.
Proof. destruct l; [congruence|reflexivity]. Qed.

Lemma join_app sep l1 l2 :
  l1 <> [] -> l2 <> [] ->
  join sep (l1 ++ l2) = join sep l1 ++ sep ++ join sep l2.
Proof.
  induction l1 as [|w l1 IH]; intros H1 H2; [congruence|].
  destruct l1 as [|w1 l1].
  - simpl app. now rewrite join_cons.
  - change ((w :: w1 :: l1) ++ l2) with (w :: ((w1 :: l1) ++ l2)).
    rewrite join_cons by (simpl; discriminate).
    rewrite IH by (assumption || discriminate).
    rewrite (join_cons sep w (w1 :: l1)) by discriminate.
    now rewrite <- !app_assoc.
Qed.

End Words.

(* ================================================================== *)
(** * Caption chunks                                                    *)
(* ================================================================== *)

Section Chunking.

Lemma for_each_ok {A B} (body : A -> result B) (f : A -> B) l :
  (forall a, In a l -> body a = Ok (f a)) ->
  for_each body l = Ok (map f l).
Proof.
  induction l as [|a l IH]; intros H; simpl; [reflexivity|].
  rewrite (H a) by now left. simpl.
  rewrite IH by (intros; apply H; now right). reflexivity.
Qed.

(** [range(i, n, 3)] has the multiples-of-three offsets from [i] below [n]:
    the fuel of [range_loop] is enough. *)
Lemma range_loop_spec fuel i n j :
  (n - i <= fuel)%nat ->
  In j (range_loop fuel i n 3)
  <-> (i <= j < n /\ (j - i) mod 3 = 0)%nat.
Proof.
  revert i. induction fuel as [|fuel IH]; intros i Hfuel; cbn [range_loop In].
  - split; [intros []|lia].
  - destruct (Nat.ltb_spec i n) as [Hlt|Hge]; cbn [In].
    + rewrite IH by lia. split.
      * intros [<-|(Hj & Hm)].
        -- split; [lia|]. now rewrite Nat.sub_diag.
        -- split; [lia|].
           replace (j - i)%nat with ((j - (i + 3)) + 1 * 3)%nat by lia.
           now rewrite Nat.Div0.mod_add.
      * intros (Hj & Hm).
        destruct (Nat.eq_dec i j) as [->|Hne]; [now left|right].
        assert (3 <= j - i)%nat.
        { destruct (j - i)%nat as [|[|[|k]]] eqn:E; try lia;
            simpl in Hm; discriminate. }
        split; [lia|].
        replace (j - i)%nat with ((j - (i + 3)) + 1 * 3)%nat in Hm by lia.
        now rewrite Nat.Div0.mod_add in Hm.
    + split; [intros []|lia].
Qed.

Lemma range_spec n j :
  In j (range 0 n 3) <-> (j < n /\ j mod 3 = 0)%nat.
Proof.
  unfold range. rewrite range_loop_spec by lia.
  rewrite Nat.sub_0_r. intuition lia.
Qed.

(** [range(i, n, 3)] has [ceil((n - i) / 3)] elements. *)
Lemma range_loop_length fuel i n :
  (n - i <= fuel)%nat ->
  length (range_loop fuel i n 3) = ((n - i + 2) / 3)%nat.
Proof.
  revert i. induction fuel as [|fuel IH]; intros i Hfuel;
    cbn [range_loop length].
  - replace (n - i)%nat with 0%nat by lia. reflexivity.
  - destruct (Nat.ltb_spec i n) as [Hlt|Hge]; cbn [length].
    + rewrite IH by lia.
      destruct (Nat.le_gt_cases (i + 3) n) as [Hbig|Hsmall].
      * replace (n - i + 2)%nat with ((n - (i + 3) + 2) + 1 * 3)%nat by lia.
        rewrite Nat.div_add by discriminate. lia.
      * replace (n - (i + 3))%nat with 0%nat by lia.
        assert (H : (n - i = 1 \/ n - i = 2)%nat) by lia.
        destruct H as [-> | ->]; reflexivity.
    + replace (n - i)%nat with 0%nat by lia. reflexivity.
Qed.

Lemma slice_length {A} (l : list A) i :
  length (slice l i (i + 3)) = Nat.min 3 (length l - i).
Proof.
  unfold slice. rewrite length_firstn, length_skipn.
  replace (i + 3 - i)%nat with 3%nat by lia. reflexivity.
Qed.

(** The chunks of [words[i:]] hold [len(words) - i] words together. *)
Lemma chunk_lengths_sum {A} (words : list A) fuel i :
  (length words - i <= fuel)%nat ->
  list_sum (map (fun j => length (slice words j (j + 3)))
                (range_loop fuel i (length words) 3))
  = (length words - i)%nat.
Proof.
  revert i. induction fuel as [|fuel IH]; intros i Hfuel; simpl; [lia|].
  destruct (Nat.ltb_spec i (length words)) as [Hlt|Hge]; simpl; [|lia].
  rewrite IH by lia. rewrite slice_length. lia.
Qed.

Lemma slice_words words i :
  Forall (fun x => is_word x = true) words ->
  Forall (fun x => is_word x = true) (slice words i (i + 3)).
Proof.
  intros H. unfold slice.
  rewrite <- (firstn_skipn i words) in H. apply Forall_app in H as [_ H].
  rewrite <- (firstn_skipn (i + 3 - i) (skipn i words)) in H.
  now apply Forall_app in H as [H _].
Qed.

Lemma split_chunk_ok subtitle words duration i :
  words <> [] ->
  split_chunk subtitle words duration i
  = Ok (chunk_at subtitle words duration i).
Proof.
  intros Hne. unfold split_chunk, true_div.
  destruct (Z.eqb_spec (Z.of_nat (length words)) 0) as [H0|_].
  - destruct words; [congruence|simpl in H0; lia].
  - reflexivity.
Qed.

(** With no words the loop body would divide by zero. *)
Lemma split_chunk_no_words subtitle duration i :
  split_chunk subtitle [] duration i = Raise ZeroDivisionError.
Proof. reflexivity. Qed.

Lemma split_subtitle_chunks subtitle :
  split (sub_text subtitle) <> [] ->
  _split_subtitle subtitle
  = Ok (map (chunk_at subtitle (split (sub_text subtitle))
                      (sub_end subtitle - sub_start subtitle))
            (range 0 (length (split (sub_text subtitle))) 3)).
Proof.
  intros Hne. unfold _split_subtitle. apply for_each_ok.
  intros i _. now apply split_chunk_ok.
Qed.

Lemma total_duration_chunks subtitle words duration l :
  (total_duration (map (chunk_at subtitle words duration) l)
   == duration
      * (inject_Z (Z.of_nat
           (list_sum (map (fun j => length (slice words j (j + 3))) l)))
         / inject_Z (Z.of_nat (length words))))%Q.
Proof.
  unfold total_duration. induction l as [|j l IH]; simpl.
  - unfold Qdiv. ring.
  - rewrite IH. rewrite Nat2Z.inj_add, inject_Z_plus.
    unfold Qdiv. ring.
Qed.

(** Joining the chunk texts of [words[i:]] gives the join of [words[i:]]. *)
Lemma join_chunk_texts (words : list str) fuel i :
  (length words - i <= fuel)%nat ->
  join (py " ")
       (map (fun j => join (py " ") (slice words j (j + 3)))
            (range_loop fuel i (length words) 3))
  = join (py " ") (skipn i words).
Proof.
  revert i. induction fuel as [|fuel IH]; intros i Hfuel.
  - simpl. now rewrite skipn_all2 by lia.
  - cbn [range_loop].
    destruct (Nat.ltb_spec i (length words)) as [Hlt|Hge];
      [|simpl; now rewrite skipn_all2 by lia].
    cbn [map].
    assert (Hcut : skipn i words
                   = slice words i (i + 3) ++ skipn (i + 3) words).
    { unfold slice. replace (i + 3 - i)%nat with 3%nat by lia.
      rewrite Nat.add_comm, <- skipn_skipn. symmetry. apply firstn_skipn. }
    assert (Hchunk : slice words i (i + 3) <> []).
    { intros E. apply (f_equal (@length _)) in E.
      rewrite slice_length in E. cbn [length] in E. lia. }
    destruct (Nat.le_gt_cases (length words) (i + 3)) as [Hlast|Hmore].
    + rewrite Hcut, (skipn_all2 words) by lia. rewrite app_nil_r.
      destruct fuel as [|fuel]; cbn [range_loop]; [reflexivity|].
      destruct (Nat.ltb_spec (i + 3) (length words)); [lia|reflexivity].
    + rewrite join_cons.
      * rewrite IH by lia. rewrite Hcut. symmetry. apply join_app; [assumption|].
        intros E. apply (f_equal (@length _)) in E.
        rewrite length_skipn in E. cbn [length] in E. lia.
      * destruct fuel as [|fuel]; [lia|]. cbn [range_loop].
        destruct (Nat.ltb_spec (i + 3) (length words)); [|lia].
        simpl. discriminate.
Qed.

End Chunking.

Lemma inject_nat_nonzero n : (1 <= n)%nat -> ~ (inject_Z (Z.of_nat n) == 0)%Q.
Proof. intros Hn. unfold Qeq. simpl. lia. Qed.

(** C5: a caption of [n >= 1] words is split into [ceil(n / 3)] chunks,
    each chunk text has at most three words, and the chunk durations
    [end - start] add up to the duration of the caption, exactly, in
    rational arithmetic. *)
Theorem split_subtitle_count_and_duration :
  forall subtitle,
    let n := length (split (sub_text subtitle)) in
    (1 <= n)%nat ->
    exists chunks,
      _split_subtitle subtitle = Ok chunks
      /\ length chunks = ((n + 2) / 3)%nat
      /\ (n <= 3 * length chunks < n + 3)%nat
      /\ Forall (fun c => (length (split (sub_text c)) <= 3)%nat) chunks
      /\ (total_duration chunks == sub_end subtitle - sub_start subtitle)%Q.
Proof.
  intros subtitle n Hn.
  assert (Hne : split (sub_text subtitle) <> []).
  { intros E. subst n. rewrite E in Hn. simpl in Hn. lia. }
  eexists. split; [now apply split_subtitle_chunks|].
  fold n.
  assert (Hlen : length
            (map (chunk_at subtitle (split (sub_text subtitle))
                    (sub_end subtitle - sub_start subtitle))
                 (range 0 n 3)) = ((n + 2) / 3)%nat).
  { rewrite length_map. unfold range. rewrite range_loop_length by lia.
    now rewrite Nat.sub_0_r. }
  split; [exact Hlen|]. split; [|split].
  - rewrite Hlen.
    pose proof (Nat.div_mod_eq (n + 2) 3) as Hdm.
    pose proof (Nat.mod_upper_bound (n + 2) 3) as Hmod. lia.
  - apply Forall_forall. intros c Hc. apply in_map_iff in Hc as (j & <- & _).
    cbn [chunk_at sub_text].
    rewrite split_join by (apply slice_words, split_words).
    rewrite slice_length. lia.
  - rewrite total_duration_chunks. unfold range. subst n.
    rewrite chunk_lengths_sum by lia. rewrite Nat.sub_0_r.
    field. now apply inject_nat_nonzero.
Qed.

Lemma split_subtitle_count_and_duration_witness :
  exists chunks,
    _split_subtitle four_words = Ok chunks
    /\ length chunks = 2%nat
    /\ (4 <= 3 * length chunks < 4 + 3)%nat
    /\ Forall (fun c => (length (split (sub_text c)) <= 3)%nat) chunks
    /\ (total_duration chunks == 4 - 0)%Q.
Proof.
  apply (split_subtitle_count_and_duration four_words).
  vm_compute. lia.
Defined.

(** C6 as stated fails: the texts of the two chunks of [a b c d] are
    [a b c] and [d], and their concatenation is [a b cd]. *)
Lemma concat_reconstructs_fails : ~ concat_reconstructs four_words.
Proof.
  intros H. specialize (H _ eq_refl). vm_compute in H. discriminate H.
Qed.

(** Joined with single spaces the chunk texts still differ from a text whose
    words are separated by more than one space. *)
Lemma join_differs_on_double_space :
  exists chunks,
    _split_subtitle (mkSubtitle 0 1 (py "a  b")) = Ok chunks
    /\ join (py " ") (map sub_text chunks) <> py "a  b".
Proof. eexists. split; [reflexivity|]. vm_compute. discriminate. Qed.

(** C6 (amended): joining the chunk texts, in order, with single spaces
    gives the words of the caption text joined with single spaces; this is
    the caption text itself when the text consists of words separated by
    single spaces, with no other whitespace. *)
Theorem split_subtitle_texts_join :
  forall subtitle,
    exists chunks,
      _split_subtitle subtitle = Ok chunks
      /\ join (py " ") (map sub_text chunks)
         = join (py " ") (split (sub_text subtitle))
      /\ (forall words,
             Forall (fun w => is_word w = true) words ->
             sub_text subtitle = join (py " ") words ->
             join (py " ") (map sub_text chunks) = sub_text subtitle).
Proof.
  intros subtitle.
  assert (Hjoin : exists chunks,
             _split_subtitle subtitle = Ok chunks
             /\ join (py " ") (map sub_text chunks)
                = join (py " ") (split (sub_text subtitle))).
  { destruct (split (sub_text subtitle)) as [|w ws] eqn:Hw.
    - exists []. unfold _split_subtitle. rewrite Hw. split; reflexivity.
    - eexists. split; [apply split_subtitle_chunks; congruence|].
      rewrite map_map. cbn [chunk_at sub_text]. unfold range.
      rewrite <- Hw. now rewrite join_chunk_texts by lia. }
  destruct Hjoin as (chunks & Hok & Hj). exists chunks.
  split; [exact Hok|]. split; [exact Hj|].
  intros words Hwords Htext. rewrite Hj, Htext.
  now rewrite split_join.
Qed.

Lemma split_subtitle_texts_join_witness :
  exists chunks,
    _split_subtitle four_words = Ok chunks
    /\ join (py " ") (map sub_text chunks) = sub_text four_words.
Proof.
  destruct (split_subtitle_texts_join four_words) as (chunks & Hok & _ & Htext).
  exists chunks. split; [exact Hok|].
  apply (Htext [py "a"; py "b"; py "c"; py "d"]).
  - repeat constructor.
  - reflexivity.
Defined.

(** C10: a caption whose text has no words, that is an empty or
    whitespace-only text, is split into the empty list and nothing is
    raised; the loop body, which would raise [ZeroDivisionError] on an empty
    word list, is not run. *)
Theorem split_subtitle_no_words :
  forall subtitle,
    (split (sub_text subtitle) = []
     <-> forallb is_space (sub_text subtitle) = true)
    /\ (split (sub_text subtitle) = [] -> _split_subtitle subtitle = Ok [])
    /\ (forall duration i,
           split_chunk subtitle [] duration i = Raise ZeroDivisionError).
Proof.
  intros subtitle. split; [apply split_blank|]. split.
  - intros H. unfold _split_subtitle. now rewrite H.
  - intros. apply split_chunk_no_words.
Qed.

Lemma split_subtitle_no_words_witness :
  _split_subtitle blank_caption = Ok [].
Proof.
  destruct (split_subtitle_no_words blank_caption) as ([_ Hblank] & Hempty & _).
  apply Hempty, Hblank. reflexivity.
Defined.

(* ================================================================== *)
(** * The caption window                                                *)
(* ================================================================== *)

Section CaptionWindow.

Variable start_time end_time : Q.

Lemma deref_update_same r f h :
  deref (update r f h) r = option_map f (deref h r).
Proof.
  unfold deref. revert r. induction h as [|s h IH]; intros [|r]; simpl; auto.
Qed.

Lemma deref_update_other r r' f h :
  r <> r' -> deref (update r f h) r' = deref h r'.
Proof.
  unfold deref. revert r r'.
  induction h as [|s h IH]; intros [|r] [|r'] Hne; simpl; auto; congruence.
Qed.

(** After the loop an object is shifted when the loop visited it. *)
Lemma normalize_loop_deref refs h r :
  NoDup refs ->
  deref (normalize_loop start_time refs h) r
  = if in_dec Nat.eq_dec r refs
    then option_map (to_local start_time) (deref h r)
    else deref h r.
Proof.
  intros Hnd. revert h. induction Hnd as [|a refs Hnotin Hnd IH]; intros h.
  - reflexivity.
  - cbn [normalize_loop]. rewrite IH.
    destruct (in_dec Nat.eq_dec r refs) as [Hin|Hout];
      destruct (in_dec Nat.eq_dec r (a :: refs)) as [Hin'|Hout'].
    + rewrite deref_update_other; [reflexivity|]. intros ->. contradiction.
    + exfalso. apply Hout'. now right.
    + destruct Hin' as [->|Hin']; [|contradiction]. apply deref_update_same.
    + rewrite deref_update_other; [reflexivity|]. intros ->.
      apply Hout'. now left.
Qed.

Lemma read_all_normalized refs h l :
  NoDup refs -> incl l refs ->
  read_all (normalize_loop start_time refs h) l
  = map (to_local start_time) (read_all h l).
Proof.
  intros Hnd. unfold read_all.
  induction l as [|r l IH]; intros Hincl; [reflexivity|].
  cbn [flat_map]. rewrite map_app, IH by (intros x Hx; apply Hincl; now right).
  f_equal. rewrite normalize_loop_deref by assumption.
  destruct (in_dec Nat.eq_dec r refs) as [_|Hout];
    [|exfalso; apply Hout, Hincl; now left].
  now destruct (deref h r).
Qed.

Lemma read_all_cons h r l :
  read_all h (r :: l)
  = match deref h r with Some s => [s] | None => [] end ++ read_all h l.
Proof. reflexivity. Qed.

(** The objects the comprehension keeps are the captions in the window. *)
Lemma read_all_filtered (p : Subtitle -> bool) pre l :
  read_all (pre ++ l)
    (filter (fun r => match deref (pre ++ l) r with
                      | Some s => p s
                      | None => false
                      end)
            (seq (length pre) (length l)))
  = filter p l.
Proof.
  revert pre. induction l as [|a l IH]; intros pre; [reflexivity|].
  cbn [length seq filter].
  assert (Ha : deref (pre ++ a :: l) (length pre) = Some a).
  { unfold deref. rewrite nth_error_app2 by lia.
    now rewrite Nat.sub_diag. }
  rewrite Ha.
  specialize (IH (pre ++ [a])).
  rewrite <- app_assoc, length_app, Nat.add_comm in IH. cbn [app length Nat.add] in IH.
  destruct (p a); [rewrite read_all_cons, Ha; cbn [app]|]; now rewrite IH.
Qed.

Lemma trimmed_refs_NoDup h : NoDup (trimmed_refs start_time end_time h).
Proof. unfold trimmed_refs. apply NoDup_filter, seq_NoDup. Qed.

(** The in-place loop over the kept objects amounts to a filter followed by
    a map. *)
Lemma trim_subtitles_filter_map subtitles :
  trim_subtitles start_time end_time subtitles
  = map (to_local start_time)
        (filter (in_window start_time end_time) subtitles).
Proof.
  unfold trim_subtitles.
  rewrite read_all_normalized;
    [|apply trimmed_refs_NoDup|apply incl_refl].
  f_equal. unfold trimmed_refs.
  apply (read_all_filtered (in_window start_time end_time) [] subtitles).
Qed.

Lemma in_window_iff s :
  in_window start_time end_time s = true
  <-> (start_time <= sub_start s /\ sub_end s <= end_time)%Q.
Proof.
  unfold in_window. rewrite andb_true_iff, !Qle_bool_iff. reflexivity.
Qed.

End CaptionWindow.

(** C7: the caption filter keeps exactly the chunks with
    [start >= start_time] and [end <= end_time], both tested on the values
    before the shift, in their order, and then subtracts [start_time] from
    the start and the end of every kept chunk and leaves its text as it is;
    every other chunk is dropped. A chunk 10-12 in the window 5-20 is kept
    with local start 5. *)
Theorem trim_subtitles_window :
  forall start_time end_time subtitles,
    let kept := trim_subtitles start_time end_time subtitles in
    kept = map (to_local start_time)
               (filter (in_window start_time end_time) subtitles)
    /\ (forall c,
          In c kept
          <-> exists s,
                In s subtitles
                /\ (start_time <= sub_start s)%Q
                /\ (sub_end s <= end_time)%Q
                /\ c = {| sub_start := sub_start s - start_time;
                          sub_end := sub_end s - start_time;
                          sub_text := sub_text s |})
    /\ (forall text,
          trim_subtitles 5 20 [mkSubtitle 10 12 text] = [mkSubtitle 5 7 text])
    /\ (forall text,
          trim_subtitles 5 20 [mkSubtitle 3 8 text; mkSubtitle 18 22 text;
                               mkSubtitle 21 23 text] = []).
Proof.
  intros start_time end_time subtitles kept. subst kept.
  rewrite trim_subtitles_filter_map.
  split; [reflexivity|]. split; [|split; intros; reflexivity].
  intros c. rewrite in_map_iff. split.
  - intros (s & <- & Hs). apply filter_In in Hs as [Hin Hw].
    apply in_window_iff in Hw as [H1 H2]. exists s. now repeat split.
  - intros (s & Hin & H1 & H2 & ->). exists s. split; [reflexivity|].
    apply filter_In. split; [assumption|]. now apply in_window_iff.
Qed.

Lemma trim_subtitles_window_witness :
  In (mkSubtitle (10 - 5) (12 - 5) (py "so it goes"))
     (trim_subtitles 5 20 [mkSubtitle 10 12 (py "so it goes")]).
Proof.
  destruct (trim_subtitles_window 5 20 [mkSubtitle 10 12 (py "so it goes")])
    as (_ & Hin & _).
  apply Hin. exists (mkSubtitle 10 12 (py "so it goes")).
  split; [now left|]. split; [discriminate|]. split; [discriminate|].
  reflexivity.
Defined.

(* ================================================================== *)
(** * The crop rectangle                                                *)
(* ================================================================== *)

Section Crop.
Local Open Scope Q_scope.

Lemma Qlt_bool_iff a b : Qlt_bool a b = true <-> a < b.
Proof.
  unfold Qlt_bool. rewrite negb_true_iff. split.
  - intros H. apply Qnot_le_lt. intros Hle.
    apply Qle_bool_iff in Hle. congruence.
  - intros H. destruct (Qle_bool b a) eqn:E; [|reflexivity].
    apply Qle_bool_iff in E. now apply Qlt_not_le in H.
Qed.

Lemma Qlt_bool_false a b : Qlt_bool a b = false <-> b <= a.
Proof.
  unfold Qlt_bool. rewrite negb_false_iff. apply Qle_bool_iff.
Qed.

Lemma int_nonneg q : 0 <= q -> (0 <= int_ q)%Z.
Proof.
  destruct q as [n d]. unfold Qle, int_. simpl. intros H.
  apply Z.quot_pos; lia.
Qed.

Lemma int_le_bound q w : 0 <= q -> q <= inject_Z w -> (int_ q <= w)%Z.
Proof.
  destruct q as [n d]. unfold Qle, int_. simpl. intros H0 Hw.
  rewrite Z.quot_div_nonneg by lia.
  apply Z.div_le_upper_bound; lia.
Qed.

Lemma inject_pos h : (0 < h)%Z -> 0 < inject_Z h.
Proof. intros H. unfold Qlt. simpl. lia. Qed.

Lemma inject_nonzero h : (0 < h)%Z -> ~ inject_Z h == 0.
Proof. intros H. unfold Qeq. simpl. lia. Qed.

(** A frame wider than the target: [height * target] is below the width. *)
Lemma wide_frame w h t :
  (0 < h)%Z -> t < inject_Z w / inject_Z h -> inject_Z h * t < inject_Z w.
Proof.
  intros Hh Ht.
  apply (Qmult_lt_compat_r _ _ (inject_Z h) (inject_pos h Hh)) in Ht.
  rewrite (Qmult_comm (inject_Z w / inject_Z h)) in Ht.
  rewrite Qmult_div_r in Ht by now apply inject_nonzero.
  now rewrite Qmult_comm.
Qed.

(** A frame taller than the target: [width / target] is below the height. *)
Lemma tall_frame w h t :
  (0 < h)%Z -> 0 < t -> inject_Z w / inject_Z h < t ->
  inject_Z w / t < inject_Z h.
Proof.
  intros Hh Ht Hlt.
  apply (Qmult_lt_compat_r _ _ (inject_Z h) (inject_pos h Hh)) in Hlt.
  rewrite (Qmult_comm (inject_Z w / inject_Z h)) in Hlt.
  rewrite Qmult_div_r in Hlt by now apply inject_nonzero.
  apply Qlt_shift_div_r; [assumption|]. now rewrite Qmult_comm.
Qed.

(** A centred window of [inner] pixels lies inside [outer] pixels. *)
Lemma centred_inside outer inner :
  (0 <= inner <= outer)%Z ->
  let margin := ((outer - inner) / 2)%Z in
  (0 <= margin /\ margin <= margin + inner /\ margin + inner <= outer)%Z.
Proof.
  intros H margin.
  assert (Hm : (0 <= margin)%Z) by (apply Z.div_pos; lia).
  assert (Hd : (2 * margin <= outer - inner)%Z)
    by (apply Z.mul_div_le; lia).
  lia.
Qed.

End Crop.

(** C8: for a frame of positive width and height that is wider than the
    target ratio the crop is [x1 = (width - int(height * target)) // 2],
    [x2 = x1 + int(height * target)], [y1 = 0], [y2 = height]; 1920 x 1080
    with target 9/16 gives 656, 1263, 0, 1080; a frame of exactly the target
    ratio is returned uncropped, with its original bounds; and for a
    positive target the returned bounds lie inside the frame. *)
Theorem crop_to_aspect_ratio_bounds :
  (forall target width height,
      (0 < width)%Z -> (0 < height)%Z ->
      (target < inject_Z width / inject_Z height ->
       _crop_to_aspect_ratio target width height
       = Ok (Crop ((width - int_ (inject_Z height * target)) / 2) 0
                  ((width - int_ (inject_Z height * target)) / 2
                   + int_ (inject_Z height * target))
                  height))
      /\ (inject_Z width / inject_Z height == target ->
          _crop_to_aspect_ratio target width height = Ok Uncropped
          /\ bounds width height Uncropped = (0, 0, width, height)%Z)
      /\ (0 < target ->
          exists a,
            _crop_to_aspect_ratio target width height = Ok a
            /\ inside_frame width height (bounds width height a)))%Q
  /\ _process_main_video_full 1920 1080 = Ok (Crop 656 0 1263 1080).
Proof.
  split; [|reflexivity].
  intros target width height Hw Hh.
  assert (Hdiv : true_div width height
                 = Ok (inject_Z width / inject_Z height)%Q).
  { unfold true_div. destruct (Z.eqb_spec height 0); [lia|reflexivity]. }
  unfold _crop_to_aspect_ratio. rewrite Hdiv. cbn [bind].
  split; [|split].
  - intros Hwide. apply Qlt_bool_iff in Hwide. now rewrite Hwide.
  - intros Heq.
    assert (H1 : Qlt_bool target (inject_Z width / inject_Z height) = false).
    { apply Qlt_bool_false. rewrite Heq. apply Qle_refl. }
    assert (H2 : Qlt_bool (inject_Z width / inject_Z height) target = false).
    { apply Qlt_bool_false. rewrite Heq. apply Qle_refl. }
    rewrite H1, H2. split; reflexivity.
  - intros Ht.
    destruct (Qlt_bool target (inject_Z width / inject_Z height)) eqn:Hwide.
    + apply Qlt_bool_iff in Hwide. eexists. split; [reflexivity|].
      apply wide_frame in Hwide; [|assumption].
      assert (H0 : (0 <= inject_Z height * target)%Q).
      { apply Qmult_le_0_compat; apply Qlt_le_weak;
          [now apply inject_pos|assumption]. }
      pose proof (int_nonneg _ H0) as Hlo.
      pose proof (int_le_bound _ width H0 (Qlt_le_weak _ _ Hwide)) as Hhi.
      destruct (centred_inside width (int_ (inject_Z height * target))
                  (conj Hlo Hhi)) as (Ha & Hb & Hc).
      cbn [bounds inside_frame]. repeat split; (assumption || lia).
    + destruct (Qlt_bool (inject_Z width / inject_Z height) target) eqn:Htall.
      * apply Qlt_bool_iff in Htall.
        assert (Hfd : float_div (inject_Z width) target
                      = Ok (inject_Z width / target)%Q).
        { unfold float_div. destruct (Qeq_bool target 0) eqn:E; [|reflexivity].
          apply Qeq_bool_iff in E. rewrite E in Ht.
          now apply Qlt_irrefl in Ht. }
        rewrite Hfd. cbn [bind]. eexists. split; [reflexivity|].
        apply tall_frame in Htall; [|assumption|assumption].
        assert (H0 : (0 <= inject_Z width / target)%Q).
        { apply Qle_shift_div_l; [assumption|].
          rewrite Qmult_0_l. apply Qlt_le_weak. now apply inject_pos. }
        pose proof (int_nonneg _ H0) as Hlo.
        pose proof (int_le_bound _ height H0 (Qlt_le_weak _ _ Htall)) as Hhi.
        destruct (centred_inside height (int_ (inject_Z width / target))
                    (conj Hlo Hhi)) as (Ha & Hb & Hc).
        cbn [bounds inside_frame]. repeat split; (assumption || lia).
      * eexists. split; [reflexivity|].
        cbn [bounds inside_frame]. lia.
Qed.

Lemma crop_to_aspect_ratio_bounds_witness :
  _crop_to_aspect_ratio (9 / 16) 1920 1080
  = Ok (Crop ((1920 - int_ (inject_Z 1080 * (9 / 16))) / 2) 0
             ((1920 - int_ (inject_Z 1080 * (9 / 16))) / 2
              + int_ (inject_Z 1080 * (9 / 16)))
             1080)
  /\ _crop_to_aspect_ratio (9 / 16) 1080 1920 = Ok Uncropped
  /\ exists a, _crop_to_aspect_ratio (9 / 8) 1080 1920 = Ok a
               /\ inside_frame 1080 1920 (bounds 1080 1920 a).
Proof.
  destruct (proj1 crop_to_aspect_ratio_bounds (9 / 16)%Q 1920%Z 1080%Z
              eq_refl eq_refl) as (Hwide & _ & _).
  destruct (proj1 crop_to_aspect_ratio_bounds (9 / 16)%Q 1080%Z 1920%Z
              eq_refl eq_refl) as (_ & Hsame & _).
  destruct (proj1 crop_to_aspect_ratio_bounds (9 / 8)%Q 1080%Z 1920%Z
              eq_refl eq_refl) as (_ & _ & Hin).
  split; [apply Hwide; reflexivity|].
  split; [apply Hsame; reflexivity|].
  apply Hin. reflexivity.
Defined.

(* ================================================================== *)
(** * The rendering batch                                               *)
(* ================================================================== *)

Import Main.

Section Batch.

Variable World : Type.
Variable new_VideoProcessor : World -> World * result unit.
Variable process_video : render_call -> World -> World * result string.
Variable video_path : string.
Variable config : ProcessingConfig.

Local Notation "'body'" :=
  (try_body new_VideoProcessor process_video video_path config).
Local Notation "'iter'" :=
  (iteration new_VideoProcessor process_video video_path config).
Local Notation "'loop'" :=
  (for_highlights new_VideoProcessor process_video video_path config).

Lemma attempts_snoc t ev :
  attempts (t ++ [ev])
  = (attempts t + match ev with Called_VideoProcessor => 1 | _ => 0 end)%nat.
Proof.
  unfold attempts. rewrite filter_app, length_app.
  destruct ev; reflexivity.
Qed.

Lemma render_calls_snoc t ev :
  render_calls (t ++ [ev])
  = render_calls t
    ++ match ev with Called_process_video c => [c] | _ => [] end.
Proof.
  unfold render_calls. rewrite flat_map_app. simpl.
  now rewrite app_nil_r.
Qed.

(** The handler turns a raising body into a logged failure. *)
Lemma iteration_raise idx total h st st' e :
  body idx total h st = (st', Raise e) ->
  iter idx total h st = (emit (Logged (Error_failed idx e)) st', Ok tt).
Proof.
  intros H. unfold iteration, try_except. now rewrite H.
Qed.

Lemma iteration_return idx total h st st' :
  body idx total h st = (st', Ok tt) ->
  iter idx total h st = (st', Ok tt).
Proof.
  intros H. unfold iteration, try_except. now rewrite H.
Qed.

(** One iteration never raises. *)
Lemma iteration_ok idx total h st : snd (iter idx total h st) = Ok tt.
Proof.
  destruct (body idx total h st) as [st' [[]|e]] eqn:H.
  - now rewrite (iteration_return _ _ _ _ _ H).
  - now rewrite (iteration_raise _ _ _ _ _ _ H).
Qed.

(** One iteration enters its [try] block once, and extends the trace. *)
Lemma iteration_trace idx total h st :
  exists t,
    trace (fst (iter idx total h st)) = trace st ++ t
    /\ attempts t = 1%nat.
Proof.
  unfold iteration, try_except, try_body, seq_, call_VideoProcessor,
    call_process_video, log, emit.
  destruct (new_VideoProcessor (world st)) as [w1 [[]|e1]]; cbn.
  - destruct (process_video _ w1) as [w2 [p|e2]]; cbn;
      rewrite <- !app_assoc; eexists; split; reflexivity.
  - rewrite <- !app_assoc. eexists; split; reflexivity.
Qed.

Lemma attempts_app t1 t2 : attempts (t1 ++ t2) = (attempts t1 + attempts t2)%nat.
Proof. unfold attempts. now rewrite filter_app, length_app. Qed.

Lemma loop_cons total h rest idx st :
  loop total (h :: rest) idx st
  = loop total rest (S idx) (fst (iter idx total h st)).
Proof.
  cbn [for_highlights]. unfold seq_ at 1.
  pose proof (iteration_ok idx total h st) as Hok.
  destruct (iter idx total h st) as [st' r]. simpl in Hok. now subst r.
Qed.

(** The loop never raises. *)
Lemma loop_ok total hs idx st : snd (loop total hs idx st) = Ok tt.
Proof.
  revert idx st. induction hs as [|h hs IH]; intros idx st; [reflexivity|].
  rewrite loop_cons. apply IH.
Qed.

(** The loop over [l1 ++ l2] is the loop over [l1] followed by the loop
    over [l2], whatever happened in [l1]. *)
Lemma loop_app total l1 l2 idx st :
  loop total (l1 ++ l2) idx st
  = loop total l2 (idx + length l1) (fst (loop total l1 idx st)).
Proof.
  revert idx st. induction l1 as [|h l1 IH]; intros idx st.
  - simpl. now rewrite Nat.add_0_r.
  - cbn [app]. rewrite !loop_cons, IH. cbn [length].
    now rewrite Nat.add_succ_r.
Qed.

Lemma loop_trace total hs idx st :
  exists t,
    trace (fst (loop total hs idx st)) = trace st ++ t
    /\ attempts t = length hs.
Proof.
  revert idx st. induction hs as [|h hs IH]; intros idx st.
  - exists []. simpl. now rewrite app_nil_r.
  - rewrite loop_cons.
    destruct (iteration_trace idx total h st) as (t1 & Ht1 & Ha1).
    destruct (IH (S idx) (fst (iter idx total h st))) as (t2 & Ht2 & Ha2).
    exists (t1 ++ t2). rewrite Ht2, Ht1, app_assoc. split; [reflexivity|].
    rewrite attempts_app, Ha1, Ha2. reflexivity.
Qed.

(** With a constructor that returns, each iteration calls [process_video]
    once, on its highlight. *)
Lemma iteration_render_calls idx total h st :
  (forall w, snd (new_VideoProcessor w) = Ok tt) ->
  render_calls (trace (fst (iter idx total h st)))
  = render_calls (trace st) ++ [render_call_of video_path config h].
Proof.
  intros Hnew.
  unfold iteration, try_except, try_body, seq_, call_VideoProcessor,
    call_process_video, log, emit.
  specialize (Hnew (world st)).
  destruct (new_VideoProcessor (world st)) as [w1 r1]. simpl in Hnew. subst r1.
  cbn.
  destruct (process_video _ w1) as [w2 [p|e2]]; cbn;
    rewrite !render_calls_snoc; cbn; now rewrite !app_nil_r.
Qed.

Lemma loop_render_calls total hs idx st :
  (forall w, snd (new_VideoProcessor w) = Ok tt) ->
  render_calls (trace (fst (loop total hs idx st)))
  = render_calls (trace st) ++ map (render_call_of video_path config) hs.
Proof.
  intros Hnew. revert idx st.
  induction hs as [|h hs IH]; intros idx st.
  - simpl. now rewrite app_nil_r.
  - rewrite loop_cons, IH, iteration_render_calls by assumption.
    now rewrite <- app_assoc.
Qed.

End Batch.

(** C9: [process_highlights] never lets an exception of a highlight escape.
    The [try] block is entered once for every highlight of the list; when
    the block of the highlight at position [i] raises, the failure is logged
    with its index and the run continues with the loop over all the
    highlights after it; and with a constructor that returns,
    [process_video] is called for every highlight, in order, whatever the
    earlier calls did. *)
Theorem process_highlights_isolation :
  forall (World : Type)
         (new_VideoProcessor : World -> World * result unit)
         (process_video : render_call -> World -> World * result string)
         (video_path : string) (config : ProcessingConfig)
         (highlights : list HighlightSegment) (st : state World),
    let run :=
      process_highlights new_VideoProcessor process_video video_path
        highlights config in
    let total := length highlights in
    snd (run st) = Ok tt
    /\ attempts (trace (fst (run st)))
       = (attempts (trace st) + length highlights)%nat
    /\ (forall pre h post st1 st2 e,
          highlights = pre ++ h :: post ->
          st1 = fst (for_highlights new_VideoProcessor process_video
                       video_path config total pre 1
                       (emit (Logged Info_starting) st)) ->
          try_body new_VideoProcessor process_video video_path config
            (S (length pre)) total h st1 = (st2, Raise e) ->
          let st3 := emit (Logged (Error_failed (S (length pre)) e)) st2 in
          run st
          = for_highlights new_VideoProcessor process_video video_path config
              total post (S (S (length pre))) st3
          /\ In (Logged (Error_failed (S (length pre)) e))
                (trace (fst (run st)))
          /\ attempts (trace (fst (run st)))
             = (attempts (trace st3) + length post)%nat)
    /\ ((forall w, snd (new_VideoProcessor w) = Ok tt) ->
        render_calls (trace (fst (run st)))
        = render_calls (trace st)
          ++ map (render_call_of video_path config) highlights).
Proof.
  intros World nv pv video_path config highlights st run total.
  assert (Hrun : run st
                 = for_highlights nv pv video_path config total highlights 1
                     (emit (Logged Info_starting) st)) by reflexivity.
  rewrite Hrun. split; [apply loop_ok|]. split; [|split].
  - destruct (loop_trace World nv pv video_path config total highlights 1
                (emit (Logged Info_starting) st)) as (t & Ht & Ha).
    rewrite Ht, attempts_app, Ha. cbn [emit trace].
    rewrite attempts_snoc. lia.
  - intros pre h post st1 st2 e Hsplit Hst1 Hbody st3.
    assert (Hstep : for_highlights nv pv video_path config total highlights 1
                      (emit (Logged Info_starting) st)
                    = for_highlights nv pv video_path config total post
                        (S (S (length pre))) st3).
    { rewrite Hsplit, loop_app, loop_cons, <- Hst1.
      replace (1 + length pre)%nat with (S (length pre)) by lia.
      now rewrite (iteration_raise _ _ _ _ _ _ _ _ _ _ _ Hbody). }
    rewrite Hstep. split; [reflexivity|].
    destruct (loop_trace World nv pv video_path config total post
                (S (S (length pre))) st3) as (t & Ht & Ha).
    rewrite Ht. split.
    + apply in_or_app. left. subst st3. cbn [emit trace].
      apply in_or_app. right. now left.
    + rewrite attempts_app, Ha. reflexivity.
  - intros Hnew. rewrite loop_render_calls by assumption.
    cbn [emit trace]. rewrite render_calls_snoc. now rewrite app_nil_r.
Qed.

Lemma process_highlights_isolation_witness :
  let run :=
    process_highlights demo_new_VideoProcessor demo_process_video
      "video.mp4" demo_highlights demo_config in
  In (Logged (Error_failed 2 (OtherException "no audio stream")))
     (trace (fst (run demo_state)))
  /\ render_calls (trace (fst (run demo_state)))
     = map (render_call_of "video.mp4" demo_config) demo_highlights.
Proof.
  intros run.
  destruct (process_highlights_isolation nat demo_new_VideoProcessor
              demo_process_video "video.mp4" demo_config demo_highlights
              demo_state) as (_ & _ & Hraise & Hcalls).
  split.
  - refine (proj1 (proj2 (Hraise [mkHighlightSegment 10 15 (py "One.")]
                            (mkHighlightSegment 20 25 (py "Two."))
                            [mkHighlightSegment 30 35 (py "Three.")]
                            _ _ (OtherException "no audio stream")
                            eq_refl eq_refl eq_refl))).
  - apply Hcalls. intros w. reflexivity.
Defined.

(* ================================================================== *)
(** * Caption chunks: timing, sizes and words                           *)
(* ================================================================== *)

From Stdlib Require Import Lqa.
Import Captions.

Lemma last_cons_default {A} (a d : A) l : last (a :: l) d = last l a.
Proof.
  revert a d. induction l as [|b l IH]; intros a d; [reflexivity|].
  change (last (a :: b :: l) d) with (last (b :: l) d).
  rewrite (IH b d). symmetry. apply IH.
Qed.

Section ChunkTiming.
Local Open Scope Q_scope.

Variable subtitle : Subtitle.
Variable words : list str.
Variable duration : Q.

Local Notation "'n'" := (inject_Z (Z.of_nat (length words))).
Local Notation "'chunks_from' fuel i" :=
  (map (chunk_at subtitle words duration)
       (range_loop fuel i (length words) 3))
  (at level 10, fuel at level 9, i at level 9).

Lemma chunk_at_end i :
  sub_end (chunk_at subtitle words duration i)
  == sub_start subtitle
     + duration
       * (inject_Z (Z.of_nat (i + length (slice words i (i + 3)))) / n).
Proof.
  cbn [chunk_at sub_end]. rewrite Nat2Z.inj_add, inject_Z_plus.
  unfold Qdiv. ring.
Qed.

(** From offset [i] on, the chunks abut and the last one ends at
    [start + duration]. *)
Lemma chunks_tile fuel i :
  (length words - i <= fuel)%nat -> (i < length words)%nat ->
  abutting (chunks_from fuel i)
  /\ (exists rest,
        chunks_from fuel i = chunk_at subtitle words duration i :: rest)
  /\ (exists c, last_error (chunks_from fuel i) = Some c
                /\ sub_end c == sub_start subtitle + duration).
Proof.
  revert i. induction fuel as [|fuel IH]; intros i Hfuel Hi; [lia|].
  cbn [range_loop]. destruct (Nat.ltb_spec i (length words)) as [_|]; [|lia].
  cbn [map].
  destruct (Nat.le_gt_cases (length words) (i + 3)) as [Hlast|Hmore].
  - assert (Hnil : range_loop fuel (i + 3) (length words) 3 = []).
    { destruct fuel; cbn [range_loop]; [reflexivity|].
      destruct (Nat.ltb_spec (i + 3) (length words)); [lia|reflexivity]. }
    rewrite Hnil. cbn [map]. split; [exact I|]. split; [now exists []|].
    eexists. split; [reflexivity|]. cbn [last].
    rewrite chunk_at_end, slice_length.
    replace (i + Nat.min 3 (length words - i))%nat with (length words) by lia.
    field. apply inject_nat_nonzero. lia.
  - destruct (IH (i + 3)%nat) as (Hab & (rest & Hrest) & (c & Hc & Hend));
      [lia|lia|].
    rewrite Hrest in *. split; [|split].
    + cbn [abutting]. split; [|exact Hab].
      rewrite chunk_at_end, slice_length.
      replace (i + Nat.min 3 (length words - i))%nat with (i + 3)%nat by lia.
      reflexivity.
    + eexists. reflexivity.
    + exists c. split; [|exact Hend]. cbn [last_error] in Hc |- *.
      now rewrite last_cons_default.
Qed.

(** A chunk that starts below the word count lies between the start and
    the end of a subtitle of non-negative duration. *)
Lemma chunk_at_inside i :
  (i < length words)%nat -> 0 <= duration ->
  let c := chunk_at subtitle words duration i in
  sub_start subtitle <= sub_start c
  /\ sub_start c <= sub_end c
  /\ sub_end c <= sub_start subtitle + duration.
Proof.
  intros Hi Hd c. subst c.
  assert (Hn : 0 < n) by (apply inject_pos; lia).
  set (len := length (slice words i (i + 3))).
  assert (Hlen : (i + len <= length words)%nat)
    by (subst len; rewrite slice_length; lia).
  assert (H1 : 0 <= inject_Z (Z.of_nat i) / n).
  { apply Qle_shift_div_l; [assumption|]. rewrite Qmult_0_l.
    unfold Qle. simpl. lia. }
  assert (H2 : 0 <= inject_Z (Z.of_nat len) / n).
  { apply Qle_shift_div_l; [assumption|]. rewrite Qmult_0_l.
    unfold Qle. simpl. lia. }
  assert (H3 : inject_Z (Z.of_nat i) / n + inject_Z (Z.of_nat len) / n <= 1).
  { setoid_replace (inject_Z (Z.of_nat i) / n + inject_Z (Z.of_nat len) / n)
      with (inject_Z (Z.of_nat (i + len)) / n)
      by (rewrite Nat2Z.inj_add, inject_Z_plus; unfold Qdiv; ring).
    apply Qle_shift_div_r; [assumption|]. rewrite Qmult_1_l.
    rewrite <- Zle_Qle. lia. }
  cbn [chunk_at sub_start sub_end]. fold len.
  set (r1 := inject_Z (Z.of_nat i) / n) in *.
  set (r2 := inject_Z (Z.of_nat len) / n) in *.
  repeat split; nra.
Qed.

End ChunkTiming.

Lemma split_subtitle_result subtitle :
  _split_subtitle subtitle = Ok (chunks_of subtitle).
Proof.
  unfold chunks_of.
  destruct (split (sub_text subtitle)) as [|w ws] eqn:Hw.
  - unfold _split_subtitle. rewrite Hw. reflexivity.
  - rewrite <- Hw. apply split_subtitle_chunks. congruence.
Qed.

Lemma abutting_starts_ascend l :
  abutting l ->
  Forall (fun c => (sub_start c <= sub_end c)%Q) l ->
  starts_ascend l.
Proof.
  induction l as [|a [|b l] IH]; intros Hab Hle; try exact I.
  destruct Hab as [Hab1 Hab2]. inversion Hle; subst.
  split; [|now apply IH]. rewrite <- Hab1. assumption.
Qed.

Section ChunkWords.

Variable subtitle : Subtitle.
Variable words : list str.
Variable duration : Q.
Hypothesis words_ok : Forall (fun x => is_word x = true) words.

Lemma chunk_at_words i :
  split (sub_text (chunk_at subtitle words duration i))
  = slice words i (i + 3).
Proof.
  cbn [chunk_at sub_text]. apply split_join. now apply slice_words.
Qed.

Lemma chunk_at_word_count i :
  word_count (chunk_at subtitle words duration i)
  = Nat.min 3 (length words - i).
Proof. unfold word_count. now rewrite chunk_at_words, slice_length. Qed.

(** The words of the chunks from offset [i] on are the words from [i] on. *)
Lemma chunk_words_from fuel i :
  (length words - i <= fuel)%nat ->
  flat_map (fun c => split (sub_text c))
    (map (chunk_at subtitle words duration)
         (range_loop fuel i (length words) 3))
  = skipn i words.
Proof.
  revert i. induction fuel as [|fuel IH]; intros i Hfuel.
  - simpl. now rewrite skipn_all2 by lia.
  - cbn [range_loop].
    destruct (Nat.ltb_spec i (length words)) as [Hlt|Hge];
      [|simpl; now rewrite skipn_all2 by lia].
    cbn [map flat_map]. rewrite IH by lia. rewrite chunk_at_words.
    unfold slice. replace (i + 3 - i)%nat with 3%nat by lia.
    rewrite (Nat.add_comm i 3), <- skipn_skipn. apply firstn_skipn.
Qed.

End ChunkWords.

(** Every offset of [range] but the last has three more words after it. *)
Lemma range_loop_removelast fuel i n :
  Forall (fun j => (j + 3 < n)%nat) (removelast (range_loop fuel i n 3)).
Proof.
  revert i. induction fuel as [|fuel IH]; intros i; [constructor|].
  cbn [range_loop]. destruct (Nat.ltb_spec i n) as [Hlt|Hge]; [|constructor].
  specialize (IH (i + 3)%nat).
  destruct (range_loop fuel (i + 3) n 3) as [|j l] eqn:E; [constructor|].
  change (removelast (i :: j :: l)) with (i :: removelast (j :: l)).
  constructor; [|exact IH].
  destruct fuel; [discriminate|]. cbn [range_loop] in E.
  destruct (Nat.ltb_spec (i + 3) n); [assumption|discriminate].
Qed.

Lemma removelast_map {A B} (f : A -> B) l :
  removelast (map f l) = map f (removelast l).
Proof.
  induction l as [|a [|b l] IH]; try reflexivity.
  change (removelast (map f (a :: b :: l)))
    with (f a :: removelast (map f (b :: l))).
  now rewrite IH.
Qed.

Lemma chunks_of_tile subtitle :
  abutting (chunks_of subtitle)
  /\ (forall c, hd_error (chunks_of subtitle) = Some c ->
                (sub_start c == sub_start subtitle)%Q)
  /\ (forall c, last_error (chunks_of subtitle) = Some c ->
                (sub_end c == sub_end subtitle)%Q).
Proof.
  unfold chunks_of.
  set (ws := split (sub_text subtitle)).
  set (d := (sub_end subtitle - sub_start subtitle)%Q).
  destruct (Nat.eq_dec (length ws) 0) as [Hz|Hnz].
  - rewrite Hz. cbn. repeat split; intros; discriminate.
  - unfold range.
    destruct (chunks_tile subtitle ws d (length ws - 0) 0)
      as (Hab & (rest & Hrest) & (c & Hc & Hend)); [lia|lia|].
    split; [exact Hab|]. split.
    + intros c0 H0. rewrite Hrest in H0. inversion H0; subst c0.
      cbn [chunk_at sub_start]. unfold Qdiv. simpl inject_Z at 1. ring.
    + intros c0 H0. rewrite Hc in H0. inversion H0; subst c0.
      rewrite Hend. subst d. ring.
Qed.

Lemma chunks_of_inside subtitle :
  (sub_start subtitle <= sub_end subtitle)%Q ->
  Forall (fun c => (sub_start subtitle <= sub_start c
                    /\ sub_start c <= sub_end c
                    /\ sub_end c <= sub_end subtitle)%Q) (chunks_of subtitle).
Proof.
  intros Hle. unfold chunks_of.
  set (ws := split (sub_text subtitle)).
  set (d := (sub_end subtitle - sub_start subtitle)%Q).
  assert (Hd : (0 <= d)%Q) by (subst d; lra).
  apply Forall_forall. intros c Hc. apply in_map_iff in Hc as (j & <- & Hj).
  apply range_spec in Hj as [Hj _].
  destruct (chunk_at_inside subtitle ws d j Hj Hd) as (H1 & H2 & H3).
  repeat split; [assumption|assumption|]. subst d. lra.
Qed.

Lemma chunks_of_word_counts subtitle :
  Forall (fun c => (1 <= word_count c <= 3)%nat) (chunks_of subtitle)
  /\ Forall (fun c => word_count c = 3%nat) (removelast (chunks_of subtitle))
  /\ list_sum (map word_count (chunks_of subtitle))
     = length (split (sub_text subtitle)).
Proof.
  unfold chunks_of.
  set (ws := split (sub_text subtitle)).
  set (d := (sub_end subtitle - sub_start subtitle)%Q).
  pose proof (split_words (sub_text subtitle)) as Hws. fold ws in Hws.
  split; [|split].
  - apply Forall_forall. intros c Hc. apply in_map_iff in Hc as (j & <- & Hj).
    apply range_spec in Hj as [Hj _].
    rewrite (chunk_at_word_count subtitle ws d Hws). lia.
  - rewrite removelast_map. apply Forall_forall. intros c Hc.
    apply in_map_iff in Hc as (j & <- & Hj).
    pose proof (range_loop_removelast (length ws - 0) 0 (length ws)) as Hr.
    rewrite Forall_forall in Hr. specialize (Hr j Hj).
    rewrite (chunk_at_word_count subtitle ws d Hws). lia.
  - rewrite map_map.
    rewrite (map_ext _ (fun j => length (slice ws j (j + 3))))
      by (intros j; unfold word_count;
          now rewrite (chunk_at_words subtitle ws d Hws)).
    unfold range. rewrite chunk_lengths_sum by lia. lia.
Qed.

Lemma chunks_of_words subtitle :
  flat_map (fun c => split (sub_text c)) (chunks_of subtitle)
  = split (sub_text subtitle).
Proof.
  unfold chunks_of, range.
  rewrite chunk_words_from by (apply split_words || lia).
  reflexivity.
Qed.

Lemma chunks_of_length subtitle :
  length (chunks_of subtitle)
  = ((length (split (sub_text subtitle)) + 2) / 3)%nat.
Proof.
  unfold chunks_of, range. rewrite length_map, range_loop_length by lia.
  now rewrite Nat.sub_0_r.
Qed.

(** X1: the chunks tile the caption. The first chunk starts at the start of
    the caption, every chunk ends where the next one starts, and the last
    chunk ends at the end of the caption, in exact arithmetic. *)
Theorem split_subtitle_tiles :
  forall subtitle,
  exists chunks,
    _split_subtitle subtitle = Ok chunks
    /\ abutting chunks
    /\ (forall c, hd_error chunks = Some c ->
                  (sub_start c == sub_start subtitle)%Q)
    /\ (forall c, last_error chunks = Some c ->
                  (sub_end c == sub_end subtitle)%Q).
Proof.
  intros subtitle. exists (chunks_of subtitle).
  split; [apply split_subtitle_result|apply chunks_of_tile].
Qed.

Lemma split_subtitle_tiles_witness :
  exists chunks,
    _split_subtitle seven_words = Ok chunks
    /\ (forall c, hd_error chunks = Some c -> (sub_start c == 10)%Q)
    /\ (forall c, last_error chunks = Some c -> (sub_end c == 17)%Q).
Proof.
  destruct (split_subtitle_tiles seven_words) as (chunks & Hok & _ & Hf & Hl).
  exists chunks. split; [exact Hok|]. split; [exact Hf|exact Hl].
Defined.

(** X2: for a caption whose end is not before its start, every chunk lies
    between the start and the end of the caption, no chunk ends before it
    starts, and the chunk starts never go back. *)
Theorem split_subtitle_inside :
  forall subtitle,
    (sub_start subtitle <= sub_end subtitle)%Q ->
    exists chunks,
      _split_subtitle subtitle = Ok chunks
      /\ Forall (fun c => (sub_start subtitle <= sub_start c
                           /\ sub_start c <= sub_end c
                           /\ sub_end c <= sub_end subtitle)%Q) chunks
      /\ starts_ascend chunks.
Proof.
  intros subtitle Hle. exists (chunks_of subtitle).
  split; [apply split_subtitle_result|].
  pose proof (chunks_of_inside subtitle Hle) as Hin.
  split; [exact Hin|].
  apply abutting_starts_ascend; [apply chunks_of_tile|].
  eapply Forall_impl; [|exact Hin]. intros c (_ & H & _). exact H.
Qed.

Lemma split_subtitle_inside_witness :
  exists chunks,
    _split_subtitle seven_words = Ok chunks
    /\ Forall (fun c => (10 <= sub_start c /\ sub_start c <= sub_end c
                         /\ sub_end c <= 17)%Q) chunks
    /\ starts_ascend chunks.
Proof.
  apply (split_subtitle_inside seven_words). discriminate.
Defined.

(** X3: every chunk has between one and three words, every chunk but the
    last has exactly three, and together the chunks have as many words as
    the caption text. *)
Theorem split_subtitle_word_counts :
  forall subtitle,
  exists chunks,
    _split_subtitle subtitle = Ok chunks
    /\ Forall (fun c => (1 <= word_count c <= 3)%nat) chunks
    /\ Forall (fun c => word_count c = 3%nat) (removelast chunks)
    /\ list_sum (map word_count chunks)
       = length (split (sub_text subtitle)).
Proof.
  intros subtitle. exists (chunks_of subtitle).
  split; [apply split_subtitle_result|apply chunks_of_word_counts].
Qed.

(** X4: the words of the chunk texts, in order, are the words of the
    caption text: chunking loses and adds no word. *)
Theorem split_subtitle_keeps_words :
  forall subtitle,
  exists chunks,
    _split_subtitle subtitle = Ok chunks
    /\ flat_map (fun c => split (sub_text c)) chunks
       = split (sub_text subtitle).
Proof.
  intros subtitle. exists (chunks_of subtitle).
  split; [apply split_subtitle_result|apply chunks_of_words].
Qed.

(* ================================================================== *)
(** * From the segments of the speech model to the rendered captions    *)
(* ================================================================== *)

Section Stripping.

Lemma split_scan_blank b :
  forallb is_space b = true -> split_scan b = ([], []).
Proof.
  induction b as [|c b IH]; simpl; [reflexivity|].
  intros H. apply andb_prop in H as [Hc Hb]. now rewrite (IH Hb), Hc.
Qed.

(** Whitespace at the end of a string adds no word. *)
Lemma split_app_blank a b :
  forallb is_space b = true -> split (a ++ b) = split a.
Proof.
  intros Hb. unfold split.
  assert (H : split_scan (a ++ b) = split_scan a).
  { induction a as [|c a IH]; simpl; [now apply split_scan_blank|].
    now rewrite IH. }
  now rewrite H.
Qed.

(** Whitespace at the start of a string adds no word. *)
Lemma split_blank_app b s :
  forallb is_space b = true -> split (b ++ s) = split s.
Proof.
  unfold split. induction b as [|c b IH]; simpl; [reflexivity|].
  intros H. apply andb_prop in H as [Hc Hb]. specialize (IH Hb).
  destruct (split_scan (b ++ s)) as [w ws]. rewrite Hc. simpl. exact IH.
Qed.

Lemma lstrip_decomp s :
  exists b, s = b ++ lstrip s /\ forallb is_space b = true.
Proof.
  induction s as [|c s (b & Hs & Hb)]; simpl; [now exists []|].
  destruct (is_space c) eqn:Hc.
  - exists (c :: b). simpl. rewrite Hc, Hb. split; [now f_equal|reflexivity].
  - now exists [].
Qed.

Lemma rstrip_decomp s :
  exists b, s = rstrip s ++ b /\ forallb is_space b = true.
Proof.
  destruct (lstrip_decomp (rev s)) as (b & Hs & Hb).
  exists (rev b). split.
  - unfold rstrip. rewrite <- rev_app_distr, <- Hs. now rewrite rev_involutive.
  - rewrite forallb_forall in *. intros x Hx. apply Hb. now apply in_rev.
Qed.

(** [strip] changes no word. *)
Lemma split_strip s : split (strip s) = split s.
Proof.
  unfold strip.
  destruct (lstrip_decomp s) as (b1 & H1 & Hb1).
  destruct (rstrip_decomp (lstrip s)) as (b2 & H2 & Hb2).
  rewrite H1 at 2. rewrite (split_blank_app _ _ Hb1).
  rewrite H2 at 2. now rewrite (split_app_blank _ _ Hb2).
Qed.

End Stripping.

Lemma extend_all_chunks subtitles :
  extend_all subtitles = Ok (flat_map chunks_of subtitles).
Proof.
  induction subtitles as [|s subtitles IH]; [reflexivity|].
  cbn [extend_all flat_map]. rewrite split_subtitle_result. cbn [bind].
  rewrite IH. reflexivity.
Qed.

Lemma extract_subtitles_chunks segments :
  extract_subtitles segments
  = Ok (flat_map (fun s => chunks_of (stripped s)) segments).
Proof.
  unfold extract_subtitles. rewrite extend_all_chunks.
  now rewrite flat_map_concat_map, map_map, <- flat_map_concat_map.
Qed.

(** X5: [extract_subtitles] never raises, whatever the segments (a segment
    with an empty or blank text adds no caption); the words of its captions,
    in order, are the words of the segments; every caption has one to three
    words; and a segment of [n] words gives [ceil(n / 3)] captions. *)
Theorem extract_subtitles_words :
  forall segments,
  exists subtitles,
    extract_subtitles segments = Ok subtitles
    /\ flat_map (fun c => split (sub_text c)) subtitles
       = flat_map (fun s => split (sub_text s)) segments
    /\ Forall (fun c => (1 <= word_count c <= 3)%nat) subtitles
    /\ length subtitles
       = list_sum (map (fun s => ((length (split (sub_text s)) + 2) / 3)%nat)
                       segments).
Proof.
  intros segments. eexists. split; [apply extract_subtitles_chunks|].
  induction segments as [|seg segments (Hw & Hc & Hl)].
  - repeat split. constructor.
  - cbn [flat_map map list_sum].
    pose proof (chunks_of_words (stripped seg)) as Hcw.
    pose proof (chunks_of_length (stripped seg)) as Hcl.
    destruct (chunks_of_word_counts (stripped seg)) as (Hcc & _ & _).
    cbn [stripped sub_text] in Hcw, Hcl. rewrite split_strip in Hcw, Hcl.
    split; [|split].
    + now rewrite flat_map_app, Hcw, Hw.
    + apply Forall_app. now split.
    + now rewrite length_app, Hcl, Hl.
Qed.

Lemma extract_subtitles_ordered segments :
  Forall (fun s => (sub_start s <= sub_end s)%Q) segments ->
  Forall (fun c => (sub_start c <= sub_end c)%Q)
         (flat_map (fun s => chunks_of (stripped s)) segments).
Proof.
  induction 1 as [|seg segments Hseg Hsegs IH]; [constructor|].
  cbn [flat_map]. apply Forall_app. split; [|assumption].
  pose proof (chunks_of_inside (stripped seg) Hseg) as Hin.
  eapply Forall_impl; [|exact Hin]. intros c (_ & H & _). exact H.
Qed.

(** X6: when no segment ends before it starts, the captions that are
    rendered for the window from [start_time] to [end_time] all lie on the
    local time line of the clip: each has
    [0 <= start <= end <= end_time - start_time]. *)
Theorem rendered_captions_in_clip :
  forall segments start_time end_time,
    Forall (fun s => (sub_start s <= sub_end s)%Q) segments ->
    exists captions,
      rendered_captions segments start_time end_time = Ok captions
      /\ Forall (fun c => (0 <= sub_start c
                           /\ sub_start c <= sub_end c
                           /\ sub_end c <= end_time - start_time)%Q) captions.
Proof.
  intros segments start_time end_time Hsegs.
  pose proof (extract_subtitles_ordered segments Hsegs) as Hle.
  unfold rendered_captions. rewrite extract_subtitles_chunks. cbn [bind].
  eexists. split; [reflexivity|].
  rewrite trim_subtitles_filter_map.
  apply Forall_forall. intros c Hc.
  apply in_map_iff in Hc as (s & <- & Hs).
  apply filter_In in Hs as [Hs Hw]. apply in_window_iff in Hw as [H1 H2].
  rewrite Forall_forall in Hle. specialize (Hle s Hs).
  cbn [to_local sub_start sub_end]. repeat split; lra.
Qed.

Lemma rendered_captions_in_clip_witness :
  exists captions,
    rendered_captions [seven_words; mkSubtitle 30 31 (py " late ")] 12 20
    = Ok captions
    /\ Forall (fun c => (0 <= sub_start c /\ sub_start c <= sub_end c
                         /\ sub_end c <= 20 - 12)%Q) captions.
Proof.
  apply (rendered_captions_in_clip
           [seven_words; mkSubtitle 30 31 (py " late ")] 12 20).
  repeat constructor; discriminate.
Defined.

(* ================================================================== *)
(** * More on the crop rectangle                                        *)
(* ================================================================== *)

Section CropMore.
Local Open Scope Q_scope.

(** [int] of a non-negative ratio is its floor. *)
Lemma int_floor q :
  0 <= q -> inject_Z (int_ q) <= q /\ q < inject_Z (int_ q) + 1.
Proof.
  destruct q as [n d]. unfold Qle, Qlt, int_. simpl. intros H0.
  rewrite Z.quot_div_nonneg by lia.
  pose proof (Z.mul_div_le n (Zpos d) ltac:(lia)) as Hlo.
  pose proof (Z.mul_succ_div_gt n (Zpos d) ltac:(lia)) as Hhi.
  split; lia.
Qed.

(** The three ways [_crop_to_aspect_ratio] returns. *)
Lemma crop_cases target width height a :
  _crop_to_aspect_ratio target width height = Ok a ->
  height <> 0%Z
  /\ ((target < inject_Z width / inject_Z height
       /\ a = Crop ((width - int_ (inject_Z height * target)) / 2) 0
                   ((width - int_ (inject_Z height * target)) / 2
                    + int_ (inject_Z height * target))
                   height)
      \/ (inject_Z width / inject_Z height < target
          /\ ~ target == 0
          /\ a = Crop 0 ((height - int_ (inject_Z width / target)) / 2)
                      width
                      ((height - int_ (inject_Z width / target)) / 2
                       + int_ (inject_Z width / target)))
      \/ (inject_Z width / inject_Z height == target /\ a = Uncropped)).
Proof.
  unfold _crop_to_aspect_ratio, true_div.
  destruct (Z.eqb_spec height 0) as [|Hh]; [discriminate|]. cbn [bind].
  intros H. split; [assumption|].
  destruct (Qlt_bool target (inject_Z width / inject_Z height)) eqn:Hwide.
  - left. apply Qlt_bool_iff in Hwide. inversion H. now split.
  - apply Qlt_bool_false in Hwide.
    destruct (Qlt_bool (inject_Z width / inject_Z height) target) eqn:Htall.
    + right; left. apply Qlt_bool_iff in Htall. unfold float_div in H.
      destruct (Qeq_bool target 0) eqn:E; [discriminate|].
      apply Qeq_bool_neq in E. cbn [bind] in H. inversion H. now repeat split.
    + right; right. apply Qlt_bool_false in Htall. inversion H.
      split; [now apply Qle_antisym|reflexivity].
Qed.

Lemma centred_margins outer inner :
  let margin := ((outer - inner) / 2)%Z in
  (0 <= outer - (margin + inner) - margin <= 1)%Z.
Proof.
  intros margin. subst margin.
  pose proof (Z.div_mod (outer - inner) 2 ltac:(lia)) as Hdm.
  pose proof (Z.mod_pos_bound (outer - inner) 2 ltac:(lia)) as Hm.
  lia.
Qed.

Lemma nine_sixteenths k :
  (0 <= k)%Z -> int_ (inject_Z (16 * k) * (9 / 16)) = (9 * k)%Z.
Proof.
  intros Hk.
  replace (inject_Z (16 * k) * (9 / 16)) with ((16 * k * 9) # 16)
    by reflexivity.
  unfold int_. cbn [Qnum Qden].
  replace (16 * k * 9)%Z with (9 * k * 16)%Z by lia.
  now rewrite Z.quot_mul by lia.
Qed.

Lemma nine_eighths k :
  (0 <= k)%Z -> int_ (inject_Z (8 * k) * (9 / 8)) = (9 * k)%Z.
Proof.
  intros Hk.
  replace (inject_Z (8 * k) * (9 / 8)) with ((8 * k * 9) # 8)
    by reflexivity.
  unfold int_. cbn [Qnum Qden].
  replace (8 * k * 9)%Z with (9 * k * 8)%Z by lia.
  now rewrite Z.quot_mul by lia.
Qed.

Lemma wide_ratio k w d :
  (0 < k)%Z -> (0 < d)%Z -> (9 * k < w)%Z ->
  9 / inject_Z d < inject_Z w / inject_Z (d * k).
Proof.
  intros Hk Hd Hw.
  apply Qlt_shift_div_l; [apply inject_pos; lia|].
  unfold Qdiv. rewrite <- Qmult_assoc, (Qmult_comm (/ inject_Z d)).
  rewrite Qmult_assoc. apply Qlt_shift_div_r; [apply inject_pos; lia|].
  change 9 with (inject_Z 9).
  rewrite <- !inject_Z_mult, <- Zlt_Qlt. nia.
Qed.

End CropMore.

Lemma crop_returns target width height :
  (0 < target)%Q -> height <> 0%Z ->
  exists a, _crop_to_aspect_ratio target width height = Ok a.
Proof.
  intros Ht Hh. unfold _crop_to_aspect_ratio, true_div.
  destruct (Z.eqb_spec height 0) as [|_]; [contradiction|]. cbn [bind].
  destruct (Qlt_bool target _); [eexists; reflexivity|].
  destruct (Qlt_bool _ target); [|eexists; reflexivity].
  unfold float_div. destruct (Qeq_bool target 0) eqn:E.
  - apply Qeq_bool_iff in E. rewrite E in Ht. now apply Qlt_irrefl in Ht.
  - eexists. reflexivity.
Qed.

(** X7: whatever the frame and the target, a returned crop is centred to
    within one pixel: the right margin is the left margin or one pixel
    more, and the bottom margin is the top margin or one pixel more. *)
Theorem crop_centred :
  forall target width height a,
    _crop_to_aspect_ratio target width height = Ok a ->
    let '(x1, y1, x2, y2) := bounds width height a in
    (0 <= (width - x2) - x1 <= 1 /\ 0 <= (height - y2) - y1 <= 1)%Z.
Proof.
  intros target width height a Ha.
  apply crop_cases in Ha as (_ & [(_ & ->)|[(_ & _ & ->)|(_ & ->)]]);
    cbn [bounds].
  - split; [apply centred_margins|lia].
  - split; [lia|apply centred_margins].
  - lia.
Qed.

Lemma crop_centred_witness :
  let '(x1, y1, x2, y2) := bounds 1920 1080 (Crop 656 0 1263 1080) in
  (0 <= (1920 - x2) - x1 <= 1 /\ 0 <= (1080 - y2) - y1 <= 1)%Z.
Proof.
  apply (crop_centred (9 / 16)%Q 1920%Z 1080%Z). reflexivity.
Defined.

(** X8: for a frame of positive size and a positive target, the crop keeps
    one side and cuts the other to the largest whole number of pixels that
    does not exceed the target: a frame that is too wide keeps its height
    and gets the width [floor(height * target)], a frame that is too tall
    keeps its width and gets the height [floor(width / target)], and a
    frame of the target ratio keeps both. *)
Theorem crop_largest_fit :
  forall target width height,
    (0 < width)%Z -> (0 < height)%Z -> (0 < target)%Q ->
    exists a,
      _crop_to_aspect_ratio target width height = Ok a
      /\ let '(x1, y1, x2, y2) := bounds width height a in
         ((target < inject_Z width / inject_Z height ->
           (y2 - y1)%Z = height
           /\ inject_Z (x2 - x1) <= inject_Z height * target
           /\ inject_Z height * target < inject_Z (x2 - x1) + 1)
          /\ (inject_Z width / inject_Z height < target ->
              (x2 - x1)%Z = width
              /\ inject_Z (y2 - y1) <= inject_Z width / target
              /\ inject_Z width / target < inject_Z (y2 - y1) + 1)
          /\ (inject_Z width / inject_Z height == target ->
              (x2 - x1)%Z = width /\ (y2 - y1)%Z = height))%Q.
Proof.
  intros target width height Hw Hh Ht.
  destruct (crop_returns target width height Ht) as [a Ha]; [lia|].
  exists a. split; [exact Ha|].
  assert (H1 : (0 <= inject_Z height * target)%Q).
  { apply Qmult_le_0_compat; apply Qlt_le_weak;
      [now apply inject_pos|assumption]. }
  assert (H2 : (0 <= inject_Z width / target)%Q).
  { apply Qle_shift_div_l; [assumption|].
    rewrite Qmult_0_l. apply Qlt_le_weak. now apply inject_pos. }
  apply crop_cases in Ha as (_ & [(Hc & ->)|[(Hc & _ & ->)|(Hc & ->)]]);
    cbn [bounds].
  - split; [intros _|split; intros Hx; exfalso; lra].
    replace (_ + _ - _)%Z with (int_ (inject_Z height * target)) by lia.
    split; [lia|]. apply int_floor, H1.
  - split; [intros Hx; exfalso; lra|].
    split; [intros _|intros Hx; exfalso; lra].
    replace (_ + _ - _)%Z with (int_ (inject_Z width / target)) by lia.
    split; [lia|]. apply int_floor, H2.
  - split; [intros Hx; exfalso; lra|].
    split; [intros Hx; exfalso; lra|]. intros _. lia.
Qed.

Lemma crop_largest_fit_witness :
  exists a,
    _crop_to_aspect_ratio (9 / 16) 1920 1080 = Ok a
    /\ let '(x1, y1, x2, y2) := bounds 1920 1080 a in
       (y2 - y1 = 1080)%Z
       /\ (inject_Z (x2 - x1) <= inject_Z 1080 * (9 / 16))%Q
       /\ (inject_Z 1080 * (9 / 16) < inject_Z (x2 - x1) + 1)%Q.
Proof.
  destruct (crop_largest_fit (9 / 16)%Q 1920%Z 1080%Z eq_refl eq_refl eq_refl)
    as (a & Ha & Hfit).
  exists a. split; [exact Ha|].
  destruct (bounds 1920 1080 a) as [[[x1 y1] x2] y2].
  destruct Hfit as (Hwide & _ & _). apply Hwide. reflexivity.
Defined.

(** X9: for a positive target, [_crop_to_aspect_ratio] raises exactly when
    the height is zero, and then it raises [ZeroDivisionError]. *)
Theorem crop_raises_on_zero_height :
  forall target width height,
    (0 < target)%Q ->
    (height = 0%Z ->
     _crop_to_aspect_ratio target width height = Raise ZeroDivisionError)
    /\ (height <> 0%Z ->
        exists a, _crop_to_aspect_ratio target width height = Ok a).
Proof.
  intros target width height Ht. split.
  - intros ->. reflexivity.
  - now apply crop_returns.
Qed.

Lemma crop_raises_on_zero_height_witness :
  _crop_to_aspect_ratio (9 / 16) 1920 0 = Raise ZeroDivisionError
  /\ exists a, _crop_to_aspect_ratio (9 / 16) 1920 (-1080) = Ok a.
Proof.
  destruct (crop_raises_on_zero_height (9 / 16)%Q 1920%Z 0%Z eq_refl)
    as [Hzero _].
  destruct (crop_raises_on_zero_height (9 / 16)%Q 1920%Z (-1080)%Z eq_refl)
    as [_ Hother].
  split; [now apply Hzero|apply Hother; discriminate].
Defined.

(** X10: the two layouts are exact on the usual frame heights. A frame of
    height [16 * k] that is wider than 9:16 is cut by
    [_process_main_video_full] to exactly [9 * k] by [16 * k] pixels, and a
    frame of height [8 * k] that is wider than 9:8 is cut by
    [_process_main_video_split] to exactly [9 * k] by [8 * k] pixels. *)
Theorem main_video_crops_exact :
  forall width k,
    (0 < k)%Z -> (9 * k < width)%Z ->
    _process_main_video_full width (16 * k)
    = Ok (Crop ((width - 9 * k) / 2) 0 ((width - 9 * k) / 2 + 9 * k) (16 * k))
    /\ _process_main_video_split width (8 * k)
       = Ok (Crop ((width - 9 * k) / 2) 0 ((width - 9 * k) / 2 + 9 * k) (8 * k)).
Proof.
  intros width k Hk Hw.
  unfold _process_main_video_full, _process_main_video_split,
    _crop_to_aspect_ratio, true_div.
  destruct (Z.eqb_spec (16 * k) 0) as [|_]; [lia|].
  destruct (Z.eqb_spec (8 * k) 0) as [|_]; [lia|]. cbn [bind].
  pose proof (wide_ratio k width 16 Hk eq_refl Hw) as H16.
  pose proof (wide_ratio k width 8 Hk eq_refl Hw) as H8.
  apply Qlt_bool_iff in H16, H8.
  change (9 / inject_Z 16)%Q with (9 / 16)%Q in H16.
  change (9 / inject_Z 8)%Q with (9 / 8)%Q in H8.
  rewrite H16, H8, nine_sixteenths, nine_eighths by lia.
  split; reflexivity.
Qed.

Lemma main_video_crops_exact_witness :
  _process_main_video_full 1280 (16 * 45)
  = Ok (Crop ((1280 - 9 * 45) / 2) 0 ((1280 - 9 * 45) / 2 + 9 * 45) (16 * 45))
  /\ _process_main_video_split 1280 (8 * 45)
     = Ok (Crop ((1280 - 9 * 45) / 2) 0 ((1280 - 9 * 45) / 2 + 9 * 45) (8 * 45)).
Proof.
  apply (main_video_crops_exact 1280 45); reflexivity.
Defined.

(* ================================================================== *)
(** * More on timestamp reconciliation                                  *)
(* ================================================================== *)

Section Sentences.

Lemma lstrip_blank s : forallb is_space s = true -> lstrip s = [].
Proof.
  induction s as [|c s IH]; simpl; [reflexivity|].
  intros H. apply andb_prop in H as [Hc Hs]. rewrite Hc. now apply IH.
Qed.

Lemma strip_blank s : forallb is_space s = true -> strip s = [].
Proof. intros H. unfold strip. now rewrite lstrip_blank. Qed.

Lemma lstrip_head s :
  forallb is_space s = false ->
  exists x r, lstrip s = x :: r /\ is_space x = false.
Proof.
  induction s as [|c s IH]; simpl; [discriminate|].
  destruct (is_space c) eqn:Hc; simpl; [exact IH|].
  intros _. now exists c, s.
Qed.

Lemma lstrip_snoc l x :
  is_space x = false -> exists l', lstrip (l ++ [x]) = l' ++ [x].
Proof.
  intros Hx. induction l as [|c l (l' & IH)]; simpl.
  - rewrite Hx. now exists [].
  - destruct (is_space c); [now exists l'|now exists (c :: l)].
Qed.

Lemma rstrip_head x r :
  is_space x = false -> exists r', rstrip (x :: r) = x :: r'.
Proof.
  intros Hx. unfold rstrip. simpl rev.
  destruct (lstrip_snoc (rev r) x Hx) as (l' & ->).
  rewrite rev_app_distr. simpl. now exists (rev l').
Qed.

(** The first piece of a string that starts with a non-blank character
    starts with that character. *)
Lemma re_split_head x r :
  is_space x = false ->
  exists p ps, re_split_sentences (x :: r) = (x :: p) :: ps.
Proof.
  intros Hx. unfold re_split_sentences. cbn [re_split_scan].
  rewrite Hx. simpl.
  destruct (re_split_scan (InPiece (is_terminator x)) r) as [p ps].
  now exists p, ps.
Qed.

(** A content has no sentence exactly when it is empty or blank. *)
Lemma sentences_of_blank content :
  sentences_of content = [] <-> forallb is_space content = true.
Proof.
  split.
  - intros Hs. destruct (forallb is_space content) eqn:Hb; [reflexivity|].
    exfalso. destruct (lstrip_head content Hb) as (x & r & Hl & Hx).
    destruct (rstrip_head x r Hx) as (r' & Hr).
    destruct (re_split_head x r' Hx) as (p & ps & Hp).
    unfold sentences_of, strip in Hs. rewrite Hl, Hr, Hp in Hs.
    discriminate Hs.
  - intros Hb. unfold sentences_of. now rewrite strip_blank.
Qed.

Lemma startswith_iff s p :
  startswith s p = true <-> exists post, s = p ++ post.
Proof.
  revert s. induction p as [|a p IH]; intros s.
  - split; [now exists s|intros _; now destruct s].
  - destruct s as [|c s]; simpl;
      [split; [discriminate|intros [? ?]; discriminate]|].
    rewrite andb_true_iff, Ascii.eqb_eq, IH. split.
    + intros [-> [post ->]]. now exists post.
    + intros [post H]. inversion H. split; [reflexivity|now exists post].
Qed.

(** [needle in hay] holds exactly when [hay] is [pre ++ needle ++ post]. *)
Lemma contains_iff needle hay :
  contains needle hay = true
  <-> exists pre post, hay = pre ++ needle ++ post.
Proof.
  induction hay as [|c hay IH].
  - cbn [contains]. rewrite orb_false_r, startswith_iff. split.
    + intros [post H]. now exists [], post.
    + intros (pre & post & H). destruct pre; [now exists post|discriminate].
  - cbn [contains]. rewrite orb_true_iff, startswith_iff, IH. split.
    + intros [[post H]|(pre & post & H)].
      * now exists [], post.
      * exists (c :: pre), post. now rewrite H.
    + intros (pre & post & H). destruct pre as [|x pre].
      * left. now exists post.
      * right. inversion H. now exists pre, post.
Qed.

Local Notation "q 'within' s" := (exists a b, s = a ++ q ++ b)
  (at level 70).

Lemma within_cons {A} (q s : list A) c : q within s -> q within (c :: s).
Proof. intros (a & b & ->). now exists (c :: a), b. Qed.

(** Inside a piece, the open piece is a prefix of the rest of the string. *)
Lemma re_split_scan_prefix b s :
  exists post, s = fst (re_split_scan (InPiece b) s) ++ post.
Proof.
  revert b. induction s as [|c s IH]; intros b; [now exists []|].
  cbn [re_split_scan]. destruct (b && is_space c).
  - destruct (re_split_scan InSeparator s). now exists (c :: s).
  - destruct (IH (is_terminator c)) as [post Hpost].
    destruct (re_split_scan (InPiece (is_terminator c)) s) as [p ps].
    simpl in *. exists post. now rewrite <- Hpost.
Qed.

(** Every piece of the split is a substring of the string. *)
Lemma re_split_scan_within m s :
  Forall (fun q => q within s)
         (fst (re_split_scan m s) :: snd (re_split_scan m s)).
Proof.
  revert m. induction s as [|c s IH]; intros m.
  - simpl. repeat constructor. now exists [], [].
  - assert (Hstep : forall m',
      Forall (fun q => q within (c :: s))
             (fst (re_split_scan m' s) :: snd (re_split_scan m' s))).
    { intros m'. eapply Forall_impl; [|apply IH].
      intros q. apply within_cons. }
    assert (Hpiece : forall b,
      Forall (fun q => q within (c :: s))
             ((c :: fst (re_split_scan (InPiece b) s))
                :: snd (re_split_scan (InPiece b) s))).
    { intros b. specialize (Hstep (InPiece b)). inversion Hstep; subst.
      constructor; [|assumption].
      destruct (re_split_scan_prefix b s) as [post Hpost].
      exists [], post. simpl. now rewrite <- Hpost. }
    cbn [re_split_scan]. destruct m as [b|].
    + destruct (b && is_space c).
      * specialize (Hstep InSeparator).
        destruct (re_split_scan InSeparator s) as [p ps]. simpl in *.
        constructor; [now exists [], (c :: s)|assumption].
      * specialize (Hpiece (is_terminator c)).
        now destruct (re_split_scan (InPiece (is_terminator c)) s).
    + destruct (is_space c); [apply Hstep|].
      specialize (Hpiece (is_terminator c)).
      now destruct (re_split_scan (InPiece (is_terminator c)) s).
Qed.

Lemma strip_within s : strip s within s.
Proof.
  unfold strip.
  destruct (lstrip_decomp s) as (b1 & H1 & _).
  destruct (rstrip_decomp (lstrip s)) as (b2 & H2 & _).
  exists b1, b2. now rewrite <- H2.
Qed.

Lemma within_trans {A} (q r s : list A) :
  q within r -> r within s -> q within s.
Proof.
  intros (a & b & ->) (a' & b' & ->).
  exists (a' ++ a), (b ++ b'). now rewrite <- !app_assoc.
Qed.

(** Every sentence is a non-empty substring of the content. *)
Lemma sentences_of_within content :
  Forall (fun q => truthy q = true /\ contains q content = true)
         (sentences_of content).
Proof.
  unfold sentences_of, re_split_sentences.
  pose proof (re_split_scan_within (InPiece false) (strip content)) as H.
  destruct (re_split_scan (InPiece false) (strip content)) as [p ps].
  simpl in H. rewrite Forall_forall in *. intros q Hq.
  apply filter_In in Hq as [Hq Ht]. split; [assumption|].
  apply contains_iff. eapply within_trans; [now apply H|apply strip_within].
Qed.

End Sentences.

Lemma Forall_last {A} (P : A -> Prop) a l :
  Forall P (a :: l) -> P (last (a :: l) a).
Proof.
  rewrite last_cons_default. revert a.
  induction l as [|b l IH]; intros a H.
  - now inversion H.
  - rewrite last_cons_default. apply IH. now inversion H.
Qed.

Lemma sentences_first_last_exist content :
  forallb is_space content = false ->
  exists first lst,
    first_sentence_of content = Some first
    /\ last_sentence_of content = Some lst
    /\ contains first content = true
    /\ contains lst content = true.
Proof.
  intros Hb. pose proof (sentences_of_within content) as Hw.
  unfold first_sentence_of, last_sentence_of.
  destruct (sentences_of content) as [|s0 rest] eqn:Hs.
  - apply sentences_of_blank in Hs. congruence.
  - exists s0, (last (s0 :: rest) s0). repeat split.
    + now inversion Hw as [|? ? [_ H] _].
    + now apply (Forall_last _ _ _ Hw).
Qed.

Lemma contains_trans a b c :
  contains a b = true -> contains b c = true -> contains a c = true.
Proof.
  rewrite !contains_iff.
  intros (p1 & q1 & ->) (p2 & q2 & ->).
  exists (p2 ++ p1), (q1 ++ q2). now rewrite <- !app_assoc.
Qed.

(** X11: reconciliation is idempotent: reconciling a reconciled highlight
    against the same transcript changes nothing. *)
Theorem fix_timestamps_idempotent :
  forall h tr,
    _fix_highlight_timestamps (_fix_highlight_timestamps h tr) tr
    = _fix_highlight_timestamps h tr.
Proof.
  intros h tr.
  destruct (forallb is_space (hl_content h)) eqn:Hb.
  - apply sentences_of_blank in Hb.
    unfold _fix_highlight_timestamps at 2. rewrite Hb.
    unfold _fix_highlight_timestamps. now rewrite Hb.
  - destruct (sentences_first_last_exist _ Hb) as (first & lst & Hf & Hl & _).
    rewrite (fix_highlight_timestamps_anchors h tr _ _ Hf Hl).
    match goal with
    | |- _fix_highlight_timestamps ?r tr = _ =>
        rewrite (fix_highlight_timestamps_anchors r tr first lst Hf Hl)
    end.
    cbn [hl_start hl_end hl_content].
    destruct (earliest_match first tr), (end_anchor first lst tr); reflexivity.
Qed.

(** X12: when some segment contains the first sentence and some segment
    contains the last sentence, the result does not depend on the start and
    end that came with the highlight: two highlights with the same content
    are reconciled to the same highlight. *)
Theorem fix_timestamps_ignores_proposal :
  forall h1 h2 tr first lst,
    hl_content h1 = hl_content h2 ->
    first_sentence_of (hl_content h1) = Some first ->
    last_sentence_of (hl_content h1) = Some lst ->
    (exists x, In x tr /\ matches first x = true) ->
    (exists x, In x tr /\ matches lst x = true) ->
    _fix_highlight_timestamps h1 tr = _fix_highlight_timestamps h2 tr.
Proof.
  intros h1 h2 tr first lst Hc Hf Hl (x & Hx & Hmx) (y & Hy & Hmy).
  rewrite (fix_highlight_timestamps_anchors h1 tr _ _ Hf Hl).
  rewrite Hc in Hf, Hl.
  rewrite (fix_highlight_timestamps_anchors h2 tr _ _ Hf Hl).
  destruct (earliest_match_complete first tr x Hx Hmx) as [s ->].
  destruct (end_anchor_complete first lst tr y Hy Hmy) as [e ->].
  now rewrite Hc.
Qed.

Lemma fix_timestamps_ignores_proposal_witness :
  _fix_highlight_timestamps scenario_candidate scenario_transcript
  = _fix_highlight_timestamps
      (mkHighlight 0 1000 (hl_content scenario_candidate)) scenario_transcript.
Proof.
  apply (fix_timestamps_ignores_proposal scenario_candidate
           (mkHighlight 0 1000 (hl_content scenario_candidate))
           scenario_transcript scenario_text_1 scenario_text_2);
    try (vm_compute; reflexivity).
  - exists (mkSegment scenario_text_1 56.62 65.12).
    split; [now left|vm_compute; reflexivity].
  - exists (mkSegment scenario_text_2 65.12 74.68).
    split; [right; now left|vm_compute; reflexivity].
Defined.

(** X13: the content has no sentence, and the highlight is returned as it
    is, exactly when the content is empty or consists of whitespace only;
    for any other content the first and the last sentence exist and occur
    in the content. *)
Theorem fix_timestamps_blank_content :
  forall h tr,
    (sentences_of (hl_content h) = []
     <-> forallb is_space (hl_content h) = true)
    /\ (forallb is_space (hl_content h) = true ->
        _fix_highlight_timestamps h tr = h)
    /\ (forallb is_space (hl_content h) = false ->
        exists first lst,
          first_sentence_of (hl_content h) = Some first
          /\ last_sentence_of (hl_content h) = Some lst
          /\ contains first (hl_content h) = true
          /\ contains lst (hl_content h) = true).
Proof.
  intros h tr. split; [apply sentences_of_blank|]. split.
  - intros Hb. apply sentences_of_blank in Hb.
    unfold _fix_highlight_timestamps. now rewrite Hb.
  - apply sentences_first_last_exist.
Qed.

Lemma fix_timestamps_blank_content_witness :
  _fix_highlight_timestamps (mkHighlight 1 2 (py "   ")) unrelated_transcript
  = mkHighlight 1 2 (py "   ")
  /\ exists first lst,
       first_sentence_of (py "...") = Some first
       /\ last_sentence_of (py "...") = Some lst
       /\ contains first (py "...") = true
       /\ contains lst (py "...") = true.
Proof.
  destruct (fix_timestamps_blank_content (mkHighlight 1 2 (py "   "))
              unrelated_transcript) as (_ & Hblank & _).
  destruct (fix_timestamps_blank_content (mkHighlight 1 2 (py "..."))
              unrelated_transcript) as (_ & _ & Hsome).
  split; [apply Hblank; reflexivity|apply Hsome; reflexivity].
Defined.

(** X14: a highlight whose content is not blank and occurs inside the text
    of one segment of the transcript is always anchored on both sides: its
    start becomes the start of a segment that contains its first sentence
    and its end the end of a segment that contains its last sentence. *)
Theorem fix_timestamps_quoted_content :
  forall h tr seg,
    In seg tr ->
    contains (hl_content h) (seg_text seg) = true ->
    forallb is_space (hl_content h) = false ->
    exists first lst s e,
      first_sentence_of (hl_content h) = Some first
      /\ last_sentence_of (hl_content h) = Some lst
      /\ In s tr /\ matches first s = true
      /\ In e tr /\ matches lst e = true
      /\ _fix_highlight_timestamps h tr
         = {| hl_start := seg_start s; hl_end := seg_end e;
              hl_content := hl_content h |}.
Proof.
  intros h tr seg Hseg Hq Hb.
  destruct (sentences_first_last_exist _ Hb) as (first & lst & Hf & Hl & H1 & H2).
  assert (Hm1 : matches first seg = true)
    by (unfold matches; eapply contains_trans; eassumption).
  assert (Hm2 : matches lst seg = true)
    by (unfold matches; eapply contains_trans; eassumption).
  destruct (earliest_match_complete first tr seg Hseg Hm1) as [s Hs].
  destruct (end_anchor_complete first lst tr seg Hseg Hm2) as [e He].
  exists first, lst, s, e.
  rewrite (fix_highlight_timestamps_anchors h tr _ _ Hf Hl), Hs, He.
  apply find_some in Hs as [Hs1 Hs2].
  apply end_anchor_sound in He as [He1 He2].
  repeat split; assumption.
Qed.

Lemma fix_timestamps_quoted_content_witness :
  exists first lst s e,
    first_sentence_of (py "find out") = Some first
    /\ last_sentence_of (py "find out") = Some lst
    /\ In s scenario_transcript /\ matches first s = true
    /\ In e scenario_transcript /\ matches lst e = true
    /\ _fix_highlight_timestamps (mkHighlight 70 80 (py "find out"))
         scenario_transcript
       = {| hl_start := seg_start s; hl_end := seg_end e;
            hl_content := py "find out" |}.
Proof.
  apply (fix_timestamps_quoted_content (mkHighlight 70 80 (py "find out"))
           scenario_transcript
           (mkSegment (py "Let's find out!") 77.70 100.62)).
  - right; right; right; now left.
  - vm_compute; reflexivity.
  - reflexivity.
Defined.

(* ================================================================== *)
(** * File names and the additional video                               *)
(* ================================================================== *)

Import PyErr OutputFiles AdditionalVideo.

Section Files.

Lemma before_last_absent sep s :
  forallb (fun c => negb (Ascii.eqb c sep)) s = true ->
  before_last sep s = None.
Proof.
  induction s as [|c s IH]; simpl; [reflexivity|].
  intros H. apply andb_prop in H as [Hc Hs]. rewrite (IH Hs).
  apply negb_true_iff in Hc. now rewrite Hc.
Qed.

(** The part before the last separator, when nothing after it has one. *)
Lemma before_last_app sep stem ext :
  forallb (fun c => negb (Ascii.eqb c sep)) ext = true ->
  before_last sep (stem ++ sep :: ext) = Some stem.
Proof.
  intros Hext. induction stem as [|c stem IH]; simpl.
  - rewrite (before_last_absent _ _ Hext). now rewrite Ascii.eqb_refl.
  - now rewrite IH.
Qed.

Lemma endswith_iff s suffix :
  endswith s suffix = true <-> exists pre, s = pre ++ suffix.
Proof.
  unfold endswith. rewrite startswith_iff. split.
  - intros [post H]. exists (rev post).
    apply (f_equal (@rev _)) in H.
    now rewrite rev_involutive, rev_app_distr, rev_involutive in H.
  - intros [pre ->]. exists (rev pre). now rewrite rev_app_distr.
Qed.

End Files.

(** X15: the sidecar caption file of an output [stem.mp4] is
    [stem_subtitles.json], whatever the stem, dots included; for the name
    that [_generate_output_filename] builds it is
    [output/<base>_highlight_<time>_subtitles.json]. *)
Theorem subtitles_filename_of_output :
  (forall stem,
      subtitles_filename (stem ++ py ".mp4") = stem ++ py "_subtitles.json")
  /\ (forall base_name current_datetime,
         subtitles_filename
           (_generate_output_filename base_name current_datetime)
         = py "output/" ++ base_name ++ py "_highlight_" ++ current_datetime
           ++ py "_subtitles.json").
Proof.
  assert (H : forall stem,
             subtitles_filename (stem ++ py ".mp4")
             = stem ++ py "_subtitles.json").
  { intros stem. unfold subtitles_filename, rsplit1_head.
    change (stem ++ py ".mp4") with (stem ++ "."%char :: py "mp4").
    now rewrite before_last_app. }
  split; [exact H|].
  intros base_name current_datetime. unfold _generate_output_filename.
  rewrite !app_assoc. rewrite H. now rewrite <- !app_assoc.
Qed.

(** X16: the additional video is drawn from the directory entries that end
    in [.mp4], [.avi] or [.mov]. With no such entry the selection raises
    [IndexError]; otherwise it returns one of these entries, whatever the
    draws of the random generator. *)
Theorem select_additional_video_choice :
  forall listing draw u duration_of duration,
    (video_files listing = [] ->
     select_additional_video listing draw u duration_of duration
     = Fail (IndexError "Cannot choose from an empty sequence"))
    /\ (video_files listing <> [] ->
        exists sel,
          select_additional_video listing draw u duration_of duration
          = Done sel
          /\ In (random_video sel) listing
          /\ (exists stem,
                random_video sel = stem ++ py ".mp4"
                \/ random_video sel = stem ++ py ".avi"
                \/ random_video sel = stem ++ py ".mov")).
Proof.
  intros listing draw u duration_of duration.
  unfold select_additional_video. split.
  - intros ->. reflexivity.
  - intros Hne.
    destruct (video_files listing) as [|f fs] eqn:Hv; [congruence|].
    unfold random_choice.
    assert (Hlt : (draw mod length (f :: fs) < length (f :: fs))%nat)
      by (apply Nat.mod_upper_bound; discriminate).
    destruct (nth_error (f :: fs) (draw mod length (f :: fs))) as [a|] eqn:Hn;
      [|apply nth_error_None in Hn; lia].
    cbn [and_then]. eexists. split; [reflexivity|]. cbn [random_video].
    apply nth_error_In in Hn. rewrite <- Hv in Hn.
    apply filter_In in Hn as [Hin Hext]. split; [assumption|].
    apply existsb_exists in Hext as (x & Hx & He).
    apply endswith_iff in He as [stem ->]. exists stem.
    destruct Hx as [<-|[<-|[<-|[]]]]; auto.
Qed.

Lemma select_additional_video_choice_witness :
  select_additional_video [py "notes.txt"; py "clip.MP4"] 3 (1 # 2)
    (fun _ => 60) 20
  = Fail (IndexError "Cannot choose from an empty sequence")
  /\ exists sel,
       select_additional_video [py "notes.txt"; py "a.mov"; py "b.mp4"] 3
         (1 # 2) (fun _ => 60) 20 = Done sel
       /\ In (random_video sel) [py "notes.txt"; py "a.mov"; py "b.mp4"].
Proof.
  destruct (select_additional_video_choice [py "notes.txt"; py "clip.MP4"]
              3 (1 # 2) (fun _ => 60) 20) as [Hnone _].
  destruct (select_additional_video_choice
              [py "notes.txt"; py "a.mov"; py "b.mp4"]
              3 (1 # 2) (fun _ => 60) 20) as [_ Hsome].
  split; [apply Hnone; reflexivity|].
  destruct Hsome as (sel & Hsel & Hin & _); [discriminate|].
  exists sel. now split.
Defined.

(** X17: in exact arithmetic and for a draw [0 <= u < 1], the window cut
    out of the additional video starts at or after 0 and is [duration]
    long; when the video is at least [duration] long the window ends inside
    the video, and when it is shorter the window starts at 0. *)
Theorem select_additional_video_window :
  forall listing draw u duration_of duration sel,
    (0 <= u)%Q -> (u < 1)%Q ->
    select_additional_video listing draw u duration_of duration = Done sel ->
    (0 <= random_start sel)%Q
    /\ (random_stop sel - random_start sel == duration)%Q
    /\ (duration <= duration_of (random_video sel) ->
        random_stop sel <= duration_of (random_video sel))%Q
    /\ (duration_of (random_video sel) <= duration ->
        random_start sel == 0)%Q.
Proof.
  intros listing draw u duration_of duration sel Hu0 Hu1.
  unfold select_additional_video.
  destruct (random_choice draw (video_files listing)) as [chosen|e];
    cbn [and_then]; [|discriminate].
  intros H. inversion H; subst sel; clear H.
  cbn [random_video random_start random_stop].
  unfold random_uniform, max0.
  set (D := duration_of chosen).
  destruct (Qle_bool (D - duration) 0) eqn:E.
  - apply Qle_bool_iff in E. repeat split; intros; try nra.
  - assert (Hpos : (0 < D - duration)%Q).
    { apply Qnot_le_lt. intros Hle. apply Qle_bool_iff in Hle. congruence. }
    repeat split; intros; try nra.
Qed.

Lemma select_additional_video_window_witness :
  exists sel,
    select_additional_video [py "a.mov"; py "b.mp4"] 3 (1 # 2)
      (fun _ => 60) 20 = Done sel
    /\ (0 <= random_start sel)%Q
    /\ (random_stop sel <= 60)%Q.
Proof.
  eexists. split; [reflexivity|].
  destruct (select_additional_video_window [py "a.mov"; py "b.mp4"] 3 (1 # 2)
              (fun _ => 60) 20 _ ltac:(discriminate) eq_refl eq_refl)
    as (H0 & _ & Hfit & _).
  split; [exact H0|]. apply Hfit. discriminate.
Defined.

(* ================================================================== *)
(** * The response of the completion service                            *)
(* ================================================================== *)

Import HighlightExtraction.

Section Response.

Variable tr : list Segment.











End Response.







Section Combined.

Lemma cons_word_app w ws l : cons_word w (ws ++ l) = cons_word w ws ++ l.
Proof. now destruct w. Qed.

Lemma split_scan_app_space a c r :
  is_space c = true ->
  split_scan (a ++ c :: r)
  = (fst (split_scan a), snd (split_scan a) ++ split r).
Proof.
  intros Hc. induction a as [|x a IH]; cbn [app split_scan].
  - rewrite Hc. unfold split. now destruct (split_scan r).
  - rewrite IH. destruct (split_scan a) as [w ws]. cbn [fst snd].
    destruct (is_space x); [|reflexivity].
    now rewrite cons_word_app.
Qed.

(** The words of two texts joined by a space. *)
Lemma split_app_space a b :
  split (a ++ py " " ++ b) = split a ++ split b.
Proof.
  unfold split at 1. change (py " " ++ b) with (" "%char :: b).
  rewrite split_scan_app_space by reflexivity.
  unfold split at 2. destruct (split_scan a) as [w ws]. cbn [fst snd].
  apply cons_word_app.
Qed.

End Combined.

(** X20: the words of the combined transcription that [load_transcription]
    returns are the words of the segment texts, in order. *)
Theorem load_transcription_words :
  forall data,
    split (load_transcription data)
    = flat_map (fun segment => split (seg_text segment)) data.
Proof.
  intros data. unfold load_transcription.
  induction data as [|s data IH]; [reflexivity|].
  cbn [map flat_map]. destruct data as [|s' data].
  - cbn [map join flat_map]. now rewrite app_nil_r.
  - rewrite join_cons by discriminate.
    rewrite split_app_space. now rewrite IH.
Qed.

(* ================================================================== *)
(** * The file name of a downloaded video                               *)
(* ================================================================== *)

Import YouTubeDownloader.

Section Sanitize.

Lemma lstrip_idem s : lstrip (lstrip s) = lstrip s.
Proof.
  induction s as [|c s IH]; [reflexivity|]. cbn [lstrip].
  destruct (is_space c) eqn:Hc; [exact IH|]. cbn [lstrip]. now rewrite Hc.
Qed.

Lemma rstrip_idem s : rstrip (rstrip s) = rstrip s.
Proof. unfold rstrip. now rewrite rev_involutive, lstrip_idem. Qed.

Lemma lstrip_cases s :
  lstrip s = [] \/ exists x r, lstrip s = x :: r /\ is_space x = false.
Proof.
  destruct (forallb is_space s) eqn:Hb.
  - left. now apply lstrip_blank.
  - right. now apply lstrip_head.
Qed.

(** Stripping twice is stripping once. *)
Lemma strip_idem s : strip (strip s) = strip s.
Proof.
  unfold strip. destruct (lstrip_cases s) as [->|(x & r & -> & Hx)].
  - reflexivity.
  - destruct (rstrip_head x r Hx) as (r' & Hr).
    rewrite Hr at 1. cbn [lstrip]. rewrite Hx, <- Hr. apply rstrip_idem.
Qed.

Lemma Forall_strip (P : ascii -> Prop) s : Forall P s -> Forall P (strip s).
Proof.
  intros H. destruct (strip_within s) as (a & b & Hs).
  rewrite Hs in H. apply Forall_app in H as [_ H].
  now apply Forall_app in H as [H _].
Qed.

Lemma filter_filter {A} (p q : A -> bool) l :
  filter q (filter p l) = filter (fun x => p x && q x) l.
Proof.
  induction l as [|a l IH]; [reflexivity|]. cbn [filter].
  destruct (p a); cbn [filter andb]; [destruct (q a)|]; now rewrite IH.
Qed.

Lemma filter_all {A} (p : A -> bool) l :
  Forall (fun x => p x = true) l -> filter p l = l.
Proof.
  induction 1 as [|a l Ha _ IH]; [reflexivity|].
  cbn [filter]. now rewrite Ha, IH.
Qed.

(** The three removals of [_sanitize_filename] keep the safe characters. *)
Lemma sanitize_filter filename :
  _sanitize_filename filename = strip (filter is_safe_char filename).
Proof.
  unfold _sanitize_filename, remove_char. rewrite !filter_filter.
  f_equal. apply filter_ext. intros c. unfold is_safe_char.
  destruct (is_invalid_char c), (Ascii.eqb c "'"), (Ascii.eqb c "`");
    reflexivity.
Qed.

Lemma filter_safe l : Forall (fun c => is_safe_char c = true) (filter is_safe_char l).
Proof. apply Forall_forall. intros c Hc. now apply filter_In in Hc. Qed.

End Sanitize.

(** X21: a sanitized file name holds none of the characters
    [< > : double quote / backslash | ? *], no single quote and no
    backtick, and has no whitespace at either end. *)
Theorem sanitize_filename_safe :
  forall filename,
    Forall (fun c => is_safe_char c = true) (_sanitize_filename filename)
    /\ strip (_sanitize_filename filename) = _sanitize_filename filename.
Proof.
  intros filename. rewrite sanitize_filter. split.
  - apply Forall_strip, filter_safe.
  - apply strip_idem.
Qed.

(** X22: sanitizing is idempotent, and it leaves a name alone that has only
    safe characters and no whitespace at either end. *)
Theorem sanitize_filename_idempotent :
  forall filename,
    _sanitize_filename (_sanitize_filename filename)
    = _sanitize_filename filename
    /\ (Forall (fun c => is_safe_char c = true) filename ->
        strip filename = filename ->
        _sanitize_filename filename = filename).
Proof.
  intros filename.
  assert (Hkeep : forall f,
             Forall (fun c => is_safe_char c = true) f ->
             strip f = f -> _sanitize_filename f = f).
  { intros f Hsafe Hstrip. rewrite sanitize_filter.
    now rewrite filter_all. }
  split; [|apply Hkeep].
  apply Hkeep; rewrite sanitize_filter.
  - apply Forall_strip, filter_safe.
  - apply strip_idem.
Qed.

Lemma sanitize_filename_idempotent_witness :
  _sanitize_filename (py "Top 10 moments - part 2")
  = py "Top 10 moments - part 2".
Proof.
  apply (sanitize_filename_idempotent (py "Top 10 moments - part 2")).
  - repeat constructor.
  - reflexivity.
Defined.

(* ================================================================== *)
(** * The interactive configuration                                     *)
(* ================================================================== *)

Section InteractiveConfig.

Variable int_of_str : str -> option Z.

Lemma blank_response line :
  forallb is_space line = true ->
  truthy (strip line) = false /\ truthy (Cli.lower (strip line)) = false.
Proof. intros H. now rewrite (strip_blank _ H). Qed.

Lemma get_int_input_range default min_value max_value stdin v rest :
  Cli.get_int_input int_of_str default min_value max_value stdin
  = (Done v, rest) ->
  v = default
  \/ ((forall m, min_value = Some m -> (m <= v)%Z)
      /\ (forall m, max_value = Some m -> (v <= m)%Z)).
Proof.
  induction stdin as [|line stdin IH]; cbn [Cli.get_int_input];
    [discriminate|].
  destruct (negb (truthy (strip line))).
  - intros H. inversion H. now left.
  - destruct (int_of_str (strip line)) as [value|]; [|exact IH].
    destruct (Cli.below value min_value) eqn:Hb; [exact IH|].
    destruct (Cli.above value max_value) eqn:Ha; [exact IH|].
    intros H. inversion H; subst. right. split.
    + intros m ->. cbn in Hb. lia.
    + intros m ->. cbn in Ha. lia.
Qed.

Lemma get_language_input_length default stdin v rest :
  Cli.get_language_input default stdin = (Done v, rest) ->
  v = default \/ length v = 2%nat.
Proof.
  induction stdin as [|line stdin IH]; cbn [Cli.get_language_input];
    [discriminate|].
  destruct (negb (truthy (Cli.lower (strip line)))).
  - intros H. inversion H. now left.
  - destruct (Nat.eqb_spec (length (Cli.lower (strip line))) 2) as [Hl|];
      [|exact IH].
    intros H. inversion H; subst. now right.
Qed.

Lemma get_position_input_valid default stdin v rest :
  Cli.get_position_input default stdin = (Done v, rest) ->
  v = default \/ Cli.str_in v Cli.valid_positions = true.
Proof.
  induction stdin as [|line stdin IH]; cbn [Cli.get_position_input];
    [discriminate|].
  destruct (negb (truthy (Cli.lower (strip line)))).
  - intros H. inversion H. now left.
  - destruct (Cli.str_in (Cli.lower (strip line)) Cli.valid_positions) eqn:Hv;
      [|exact IH].
    intros H. inversion H; subst. now right.
Qed.

Lemma get_yes_no_input_blank default line rest :
  forallb is_space line = true ->
  Cli.get_yes_no_input default (line :: rest) = (Done default, rest).
Proof.
  intros H. cbn [Cli.get_yes_no_input]. now rewrite (strip_blank _ H).
Qed.

Lemma get_int_input_blank default min_value max_value line rest :
  forallb is_space line = true ->
  Cli.get_int_input int_of_str default min_value max_value (line :: rest)
  = (Done default, rest).
Proof.
  intros H. cbn [Cli.get_int_input]. now rewrite (strip_blank _ H).
Qed.

Lemma get_language_input_blank default line rest :
  forallb is_space line = true ->
  Cli.get_language_input default (line :: rest) = (Done default, rest).
Proof.
  intros H. cbn [Cli.get_language_input]. now rewrite (strip_blank _ H).
Qed.

End InteractiveConfig.

(** X23: [get_int_input] returns the default or a number inside the bounds
    that were given; it can only fail with [EOFError], when the input ends
    before an acceptable line. *)
Theorem get_int_input_in_range :
  forall int_of_str default min_value max_value stdin,
    (forall v rest,
        Cli.get_int_input int_of_str default min_value max_value stdin
        = (Done v, rest) ->
        v = default
        \/ ((forall m, min_value = Some m -> (m <= v)%Z)
            /\ (forall m, max_value = Some m -> (v <= m)%Z)))
    /\ (forall e rest,
           Cli.get_int_input int_of_str default min_value max_value stdin
           = (Fail e, rest) ->
           e = EOFError /\ rest = []).
Proof.
  intros int_of_str default min_value max_value stdin. split.
  - intros v rest. apply get_int_input_range.
  - induction stdin as [|line stdin IH]; cbn [Cli.get_int_input];
      intros e rest H.
    + inversion H. now split.
    + destruct (negb (truthy (strip line))); [discriminate|].
      destruct (int_of_str (strip line)) as [value|]; [|now apply IH].
      destruct (Cli.below value min_value); [now apply IH|].
      destruct (Cli.above value max_value); [now apply IH|discriminate].
Qed.

Lemma get_int_input_in_range_witness :
  (7 = 10 \/ ((forall m, Some 1 = Some m -> m <= 7)
              /\ (forall m, Some 100 = Some m -> 7 <= m)))%Z.
Proof.
  destruct (get_int_input_in_range Cli.demo_int 10 (Some 1%Z) (Some 100%Z)
              [py "many"; py "500"; py " 7 "; py "8"]) as [Hok _].
  apply (Hok 7%Z [py "8"]). reflexivity.
Defined.

(** X24: a configuration that [get_interactive_config] returns has
    [1 <= min_length < max_length], [1 <= num_highlights <= 100], a caption
    position among bottom, center and top, and language codes of two
    characters, whatever was typed. *)
Theorem get_interactive_config_invariants :
  forall int_of_str stdin config rest,
    Cli.get_interactive_config int_of_str stdin = (Done config, rest) ->
    (1 <= Cli.min_length config < Cli.max_length config)%Z
    /\ (1 <= Cli.num_highlights config <= 100)%Z
    /\ Cli.str_in (Cli.subtitle_position config) Cli.valid_positions = true
    /\ length (Cli.language config) = 2%nat
    /\ length (Cli.subtitles_language config) = 2%nat.
Proof.
  intros int_of_str stdin config rest.
  unfold Cli.get_interactive_config, Cli.then_read.
  destruct (Cli.get_yes_no_input false stdin) as [[download|?] r1];
    [|discriminate].
  destruct (Cli.get_language_input (py "en") r1) as [[lang|?] r2] eqn:Hlang;
    [|discriminate].
  destruct (Cli.get_int_input int_of_str 10 (Some 1%Z) (Some 100%Z) r2)
    as [[num|?] r3] eqn:Hnum; [|discriminate].
  destruct (Cli.get_int_input int_of_str 15 (Some 1%Z) None r3)
    as [[lo|?] r4] eqn:Hlo; [|discriminate].
  destruct (Cli.get_int_input int_of_str 40 None None r4)
    as [[hi|?] r5] eqn:Hhi; [|discriminate].
  apply get_language_input_length in Hlang.
  apply get_int_input_range in Hnum, Hlo.
  assert (Hlang' : length lang = 2%nat) by (destruct Hlang as [->|]; auto).
  assert (Hnum' : (1 <= num <= 100)%Z).
  { destruct Hnum as [->|[H1 H2]]; [lia|].
    specialize (H1 _ eq_refl). specialize (H2 _ eq_refl). lia. }
  assert (Hlo' : (1 <= lo)%Z).
  { destruct Hlo as [->|[H1 _]]; [lia|]. now apply H1. }
  assert (Hbounds :
            (1 <= fst (if (hi <=? lo)%Z then (15, 40) else (lo, hi))
             < snd (if (hi <=? lo)%Z then (15, 40) else (lo, hi)))%Z).
  { destruct (Z.leb_spec hi lo); cbn; lia. }
  destruct (if (hi <=? lo)%Z then (15%Z, 40%Z) else (lo, hi)) as [lo' hi'].
  cbn [fst snd] in Hbounds.
  destruct (Cli.get_yes_no_input false r5) as [[subs|?] r6]; [|discriminate].
  destruct subs.
  - destruct (Cli.get_language_input (py "en") r6) as [[slang|?] r7] eqn:Hsl;
      [|discriminate].
    destruct (Cli.get_position_input (py "bottom") r7) as [[pos|?] r8] eqn:Hpos;
      [|discriminate].
    destruct (Cli.get_yes_no_input true r8) as [[extra|?] r9]; [|discriminate].
    intros H. inversion H; subst. cbn.
    apply get_language_input_length in Hsl.
    apply get_position_input_valid in Hpos.
    repeat split; try lia; try assumption.
    + destruct Hpos as [->|]; auto.
    + destruct Hsl as [->|]; auto.
  - destruct (Cli.get_yes_no_input true r6) as [[extra|?] r7]; [|discriminate].
    intros H. inversion H; subst. cbn.
    repeat split; try lia; assumption.
Qed.

Lemma get_interactive_config_invariants_witness :
  exists config rest,
    Cli.get_interactive_config Cli.demo_int
      [py "y"; py "RU"; py "7"; py "30"; py "20"; py "Yes"; py "";
       py " Top "; py "no"; py "left over"] = (Done config, rest)
    /\ (1 <= Cli.min_length config < Cli.max_length config)%Z.
Proof.
  do 2 eexists. split; [vm_compute; reflexivity|].
  refine (proj1 (get_interactive_config_invariants Cli.demo_int
                   [py "y"; py "RU"; py "7"; py "30"; py "20"; py "Yes";
                    py ""; py " Top "; py "no"; py "left over"]
                   _ [py "left over"] _)).
  vm_compute. reflexivity.
Defined.

(** X25: pressing Enter at every prompt gives the default configuration:
    seven empty or blank lines are read and the result is
    [ProcessingConfig()]. *)
Theorem get_interactive_config_defaults :
  forall int_of_str blanks rest,
    length blanks = 7%nat ->
    Forall (fun line => forallb is_space line = true) blanks ->
    Cli.get_interactive_config int_of_str (blanks ++ rest)
    = (Done Cli.default_config, rest).
Proof.
  intros int_of_str blanks rest Hlen Hblank.
  do 8 (destruct blanks as [|? blanks]; try discriminate Hlen).
  repeat match goal with
         | H : Forall _ (_ :: _) |- _ => inversion H; subst; clear H
         end.
  unfold Cli.get_interactive_config, Cli.then_read. cbn [app].
  rewrite get_yes_no_input_blank by assumption. cbv beta iota.
  rewrite get_language_input_blank by assumption. cbv beta iota.
  do 3 (rewrite get_int_input_blank by assumption; cbv beta iota).
  cbn [Z.leb Z.compare Pos.compare Pos.compare_cont].
  rewrite get_yes_no_input_blank by assumption. cbv beta iota.
  rewrite get_yes_no_input_blank by assumption. reflexivity.
Qed.

Lemma get_interactive_config_defaults_witness :
  Cli.get_interactive_config Cli.demo_int
    ([py ""; py " "; py ""; py ""; py ""; py ""; py ""] ++ [py "next"])
  = (Done Cli.default_config, [py "next"]).
Proof.
  apply (get_interactive_config_defaults Cli.demo_int
           [py ""; py " "; py ""; py ""; py ""; py ""; py ""] [py "next"]).
  - reflexivity.
  - repeat constructor.
Defined.

(* ================================================================== *)
(** * Transcribing a video                                              *)
(* ================================================================== *)

Import AudioTranscriber.

Section TranscribeVideo.

Variable parent : str -> str.
Variable audio_path_in : str -> str -> str.
Variable check_audio_stream : str -> files -> outcome bool.
Variable run_ffmpeg : str -> str -> files -> files * outcome (Z * string).
Variable model_transcribe : str -> string -> nat -> files
                            -> files * outcome (list Segment).

Local Notation "'extract'" :=
  (_extract_audio check_audio_stream run_ffmpeg).
Local Notation "'transcribe'" :=
  (transcribe_video parent audio_path_in check_audio_stream run_ffmpeg
     model_transcribe).



End TranscribeVideo.



(** X27: what the caller sees when the audio cannot be extracted. With the
    video file in place, a video without audio stream is reported as
    [ValueError("Error during transcription: No audio stream found in the
    video file")], and an ffmpeg run that ends with a non-zero return code
    as [ValueError("Error during transcription: Error extracting audio:
    FFmpeg error: <stderr>")]; in both cases the files afterwards are
    those that the extraction left, less the audio file. *)
Theorem transcribe_video_extraction_errors :
  forall parent audio_path_in check_audio_stream run_ffmpeg model_transcribe
         video_path language temp_dir beam_size fs,
    path_exists video_path fs = true ->
    let dir := temp_dir_of parent video_path temp_dir in
    let audio_path := audio_path_in dir video_path in
    let fs0 := if path_exists dir fs then fs else mkdir dir fs in
    let run :=
      transcribe_video parent audio_path_in check_audio_stream run_ffmpeg
        model_transcribe video_path language temp_dir beam_size fs in
    (check_audio_stream video_path fs0 = Done false ->
     run = (if path_exists audio_path fs0 then unlink audio_path fs0 else fs0,
            Fail (ValueError
                    "Error during transcription: No audio stream found in the video file")))
    /\ (forall fs1 returncode stderr,
          check_audio_stream video_path fs0 = Done true ->
          run_ffmpeg video_path audio_path fs0
          = (fs1, Done (returncode, stderr)) ->
          returncode <> 0%Z ->
          run = (if path_exists audio_path fs1
                 then unlink audio_path fs1 else fs1,
                 Fail (ValueError
                         ("Error during transcription: Error extracting audio: FFmpeg error: "
                          ++ stderr)))).
Proof.
  intros parent audio_path_in check_audio_stream run_ffmpeg model_transcribe
    video_path language temp_dir beam_size fs Hvideo dir audio_path fs0 run.
  subst run. unfold transcribe_video. rewrite Hvideo. cbn [negb].
  fold (temp_dir_of parent video_path temp_dir). fold dir. fold fs0.
  fold audio_path. unfold transcribe_body, _extract_audio. split.
  - intros ->. reflexivity.
  - intros fs1 returncode stderr -> -> Hrc.
    destruct (Z.eqb_spec returncode 0) as [|_]; [contradiction|].
    reflexivity.
Qed.

Lemma transcribe_video_extraction_errors_witness :
  transcribe_video demo_parent demo_audio_path_in demo_check_audio_stream
    demo_run_ffmpeg demo_model_transcribe (py "videos/talk.mp4") "en"
    None 4 demo_files
  = (demo_files,
     Fail (ValueError
             "Error during transcription: Error extracting audio: FFmpeg error: codec not found")).
Proof.
  destruct (transcribe_video_extraction_errors demo_parent demo_audio_path_in
              demo_check_audio_stream demo_run_ffmpeg demo_model_transcribe
              (py "videos/talk.mp4") "en"%string None 4%nat demo_files
              eq_refl) as [_ Hrc].
  apply (Hrc (py "videos/talk_audio.wav" :: demo_files) 1%Z
             "codec not found"%string); [reflexivity|reflexivity|discriminate].
Defined.

(* ================================================================== *)
(** * The records of a rendering batch                                  *)
(* ================================================================== *)

Import BatchLog.

Section BatchRecords.

Variable World : Type.
Variable new_VideoProcessor : World -> World * result unit.
Variable process_video : render_call -> World -> World * result string.
Variable video_path : string.
Variable config : Main.ProcessingConfig.

Lemma outcome_records_app t1 t2 :
  outcome_records (t1 ++ t2) = outcome_records t1 ++ outcome_records t2.
Proof. unfold outcome_records. apply flat_map_app. Qed.

(** One iteration writes one closing record, with its own index. *)
Lemma iteration_outcome idx total h st :
  exists r,
    outcome_records
      (trace (fst (iteration new_VideoProcessor process_video video_path
                     config idx total h st)))
    = outcome_records (trace st) ++ [r]
    /\ closes idx r.
Proof.
  unfold iteration, try_except, try_body, seq_, call_VideoProcessor,
    call_process_video, log, emit.
  destruct (new_VideoProcessor (world st)) as [w1 [[]|e1]]; cbn.
  - destruct (process_video _ w1) as [w2 [p|e2]]; cbn;
      rewrite !outcome_records_app; cbn; rewrite !app_nil_r; eexists;
      (split; [reflexivity|]); [left|right]; now eexists.
  - rewrite !outcome_records_app. cbn. rewrite !app_nil_r. eexists.
    split; [reflexivity|]. right. now eexists.
Qed.

Lemma loop_outcomes total hs idx st :
  exists outcomes,
    outcome_records
      (trace (fst (for_highlights new_VideoProcessor process_video video_path
                     config total hs idx st)))
    = outcome_records (trace st) ++ outcomes
    /\ Forall2 closes (seq idx (length hs)) outcomes.
Proof.
  revert idx st. induction hs as [|h hs IH]; intros idx st.
  - exists []. cbn. rewrite app_nil_r. split; [reflexivity|constructor].
  - rewrite loop_cons.
    destruct (iteration_outcome idx total h st) as (r & Hr & Hc).
    destruct (IH (S idx)
                (fst (iteration new_VideoProcessor process_video video_path
                        config idx total h st))) as (rs & Hrs & Hcs).
    exists (r :: rs). rewrite Hrs, Hr, <- app_assoc. split; [reflexivity|].
    cbn [length seq]. now constructor.
Qed.

End BatchRecords.

(** X28: [process_highlights] closes every highlight with exactly one
    record, in the order of the list: the record of the highlight number
    [i], counted from 1, is either the path of its saved clip or a failure
    that carries the index [i]. *)
Theorem process_highlights_one_record_each :
  forall (World : Type)
         (new_VideoProcessor : World -> World * result unit)
         (process_video : render_call -> World -> World * result string)
         (video_path : string) (config : Main.ProcessingConfig)
         (highlights : list HighlightSegment) (st : state World),
  exists outcomes,
    outcome_records
      (trace (fst (process_highlights new_VideoProcessor process_video
                     video_path highlights config st)))
    = outcome_records (trace st) ++ outcomes
    /\ Forall2 closes (seq 1 (length highlights)) outcomes.
Proof.
  intros World nv pv video_path config highlights st.
  change (process_highlights nv pv video_path highlights config st)
    with (for_highlights nv pv video_path config (length highlights)
            highlights 1 (emit (Logged Info_starting) st)).
  destruct (loop_outcomes World nv pv video_path config (length highlights)
              highlights 1 (emit (Logged Info_starting) st))
    as (outcomes & Ho & Hc).
  exists outcomes. split; [|exact Hc].
  rewrite Ho. cbn [emit trace]. rewrite outcome_records_app. cbn.
  now rewrite app_nil_r.
Qed.

(* ================================================================== *)
(** * Reconciliation on a transcript in time order                      *)
(* ================================================================== *)

Import Ordered.

Section OrderedTranscript.
Local Open Scope Q_scope.

Lemma cut_at_first_found (p : Segment -> bool) pre s post :
  (forall x, In x pre -> p x = false) -> p s = true ->
  cut_at_first p (pre ++ s :: post) = Some (pre, s, post).
Proof.
  induction pre as [|a pre IH]; intros Hpre Hs; cbn [app cut_at_first].
  - now rewrite Hs.
  - rewrite (Hpre a) by now left.
    rewrite IH; [reflexivity| |assumption].
    intros x Hx. apply Hpre. now right.
Qed.

Lemma in_time_order_app pre s post :
  in_time_order (pre ++ s :: post) ->
  seg_start s <= seg_end s
  /\ Forall (fun x => seg_start x <= seg_end x /\ seg_end s <= seg_start x)
            post.
Proof.
  induction pre as [|a pre IH]; cbn [app in_time_order].
  - intros (Hs & Hafter & Hrest). split; [assumption|].
    clear Hs. induction post as [|b post IHp]; constructor.
    + inversion Hafter; subst. destruct Hrest as (Hb & _). now split.
    + inversion Hafter; subst. destruct Hrest as (_ & _ & Hr). now apply IHp.
  - intros (_ & _ & Hrest). now apply IH.
Qed.

End OrderedTranscript.

(** X29: on a transcript in time order, a reconciled highlight does not end
    before it starts, provided the last sentence occurs somewhere and does
    not occur in a segment before the one that anchors the start. *)
Theorem fix_timestamps_not_inverted :
  forall h tr first lst pre s post,
    first_sentence_of (hl_content h) = Some first ->
    last_sentence_of (hl_content h) = Some lst ->
    tr = pre ++ s :: post ->
    in_time_order tr ->
    (forall x, In x pre -> matches first x = false) ->
    matches first s = true ->
    (forall x, In x pre -> matches lst x = false) ->
    (exists x, In x tr /\ matches lst x = true) ->
    let r := _fix_highlight_timestamps h tr in
    (hl_start r = seg_start s /\ hl_start r <= hl_end r)%Q.
Proof.
  intros h tr first lst pre s post Hf Hl -> Hord Hpre Hs Hlpre
    (x & Hx & Hmx) r.
  subst r. rewrite (fix_highlight_timestamps_anchors h _ _ _ Hf Hl).
  pose proof (cut_at_first_found (matches first) pre s post Hpre Hs) as Hcut.
  assert (Hstart : earliest_match first (pre ++ s :: post) = Some s).
  { unfold earliest_match. clear Hcut Hord Hx.
    induction pre as [|a pre IH]; cbn [app find].
    - now rewrite Hs.
    - rewrite (Hpre a) by now left.
      apply IH; intros y Hy; [apply Hpre|apply Hlpre]; now right. }
  destruct (end_anchor_complete first lst _ x Hx Hmx) as [e He].
  rewrite Hstart, He. cbn [hl_start hl_end]. split; [reflexivity|].
  apply in_time_order_app in Hord as (Hss & Hafter).
  unfold end_anchor in He. rewrite Hcut in He.
  destruct (latest_match lst (pre ++ [s])) as [e'|] eqn:Hlatest; cbn in He.
  - inversion He; subst e'. apply latest_match_sound in Hlatest as [Hin Hm].
    apply in_app_or in Hin as [Hin|[<-|[]]]; [|assumption].
    rewrite (Hlpre e Hin) in Hm. discriminate.
  - apply find_some in He as [Hin _].
    rewrite Forall_forall in Hafter. destruct (Hafter e Hin). lra.
Qed.

Lemma fix_timestamps_not_inverted_witness :
  let r := _fix_highlight_timestamps scenario_candidate scenario_transcript in
  (hl_start r = 56.62 /\ hl_start r <= hl_end r)%Q.
Proof.
  apply (fix_timestamps_not_inverted scenario_candidate scenario_transcript
           scenario_text_1 scenario_text_2
           [] (mkSegment scenario_text_1 56.62 65.12)
           [ mkSegment scenario_text_2 65.12 74.68;
             mkSegment (py "What conclusions have I done?") 76.68 77.60;
             mkSegment (py "Let's find out!") 77.70 100.62 ]);
    try (vm_compute; reflexivity).
  - cbn. repeat split; try discriminate; repeat constructor; discriminate.
  - intros x [].
  - intros x [].
  - exists (mkSegment scenario_text_2 65.12 74.68).
    split; [right; now left|vm_compute; reflexivity].
Defined.
